(** * The task orchestrator: worker pool, poller, handlers and output parsing

    A shallow embedding of the orchestrator's TypeScript sources
    (worker-pool.ts, poller.ts, task-handler.ts, review-handler.ts,
    claude.ts) together with the properties its specification states.

    Conventions.
    - A JavaScript string is the list of its UTF-16 code units ([list N]);
      [js] turns an ASCII literal into one.
    - A [Map] whose iteration order does not matter is a [gmap]; the one whose
      order matters (the grouping of feedback by change request) is an
      association list.
    - A call to a collaborator (the tracker client, git, the file system, the
      agent subprocess, the clock) is an event answered by a [world], which may
      fail any call and sees the whole history of the run. *)

From Stdlib Require Import ZArith NArith Lia List Ascii String.
From stdpp Require Import gmap strings list fin_maps pretty.

Set Default Proof Using "Type".
Set Warnings "-register-all".

(** ** JavaScript strings and the built-ins the sources call *)

Module Js.

Abbreviation jsstring := (list N) (only parsing).

(** An ASCII literal as a string of code units. *)
Definition js (s : string) : jsstring :=
  List.map N_of_ascii (list_ascii_of_string s).

(** The same, with every apostrophe (39) read as a quotation mark (34):
    [quoted "{'a':1}"] is the text [{"a":1}]. *)
Definition quoted (s : string) : jsstring :=
  List.map (fun c => if (c =? 39)%N then 34%N else c) (js s).

Definition LF : N := 10.

(** Joins lines with a line feed, as the agent's output separates records. *)
Fixpoint unlines (ls : list jsstring) : jsstring :=
  match ls with
  | [] => []
  | [l] => l
  | l :: rest => l ++ LF :: unlines rest
  end.

(** WhiteSpace and LineTerminator of ECMAScript: what [String.prototype.trim]
    strips and what [\s] matches in a regular expression. *)
Definition isWhiteSpace (c : N) : bool :=
  ((c =? 9) || (c =? 10) || (c =? 11) || (c =? 12) || (c =? 13) || (c =? 32)
   || (c =? 160) || (c =? 0x1680) || ((0x2000 <=? c) && (c <=? 0x200A))
   || (c =? 0x2028) || (c =? 0x2029) || (c =? 0x202F) || (c =? 0x205F)
   || (c =? 0x3000) || (c =? 0xFEFF))%N.

(** LineTerminator: what [.] does not match. *)
Definition isLineTerminator (c : N) : bool :=
  ((c =? 10) || (c =? 13) || (c =? 0x2028) || (c =? 0x2029))%N.

Fixpoint trimStart (s : jsstring) : jsstring :=
  match s with
  | c :: r => if isWhiteSpace c then trimStart r else s
  | [] => []
  end.

Definition trimEnd (s : jsstring) : jsstring := rev (trimStart (rev s)).

Definition trim (s : jsstring) : jsstring := trimEnd (trimStart s).

(** [s.split(sep)] for a separator of one code unit; the empty string splits
    into one empty piece. *)
Fixpoint split (sep : N) (s : jsstring) : list jsstring :=
  match s with
  | [] => [[]]
  | c :: r =>
      if (c =? sep)%N then [] :: split sep r
      else match split sep r with
           | w :: ws => (c :: w) :: ws
           | [] => [[c]]
           end
  end.

(** [Boolean(s)] on a string: false exactly on the empty one. *)
Definition truthy (s : jsstring) : bool :=
  match s with [] => false | _ :: _ => true end.

(** *** JSON values and [JSON.parse] *)

Inductive json :=
| JNull
| JBool (b : bool)
| JNumber (lexeme : jsstring)
| JString (s : jsstring)
| JArray (items : list json)
| JObject (members : list (jsstring * json)).

Definition isJsonWs (c : N) : bool :=
  ((c =? 32) || (c =? 9) || (c =? 10) || (c =? 13))%N.

Fixpoint skipWs (s : jsstring) : jsstring :=
  match s with
  | c :: r => if isJsonWs c then skipWs r else s
  | [] => []
  end.

Definition isDigit (c : N) : bool := ((48 <=? c) && (c <=? 57))%N.

Fixpoint spanDigits (s : jsstring) : jsstring * jsstring :=
  match s with
  | c :: r =>
      if isDigit c then let '(ds, r') := spanDigits r in (c :: ds, r')
      else ([], s)
  | [] => ([], [])
  end.

Definition hexValue (c : N) : option N :=
  if isDigit c then Some (c - 48)%N
  else if ((97 <=? c) && (c <=? 102))%N then Some (c - 87)%N
  else if ((65 <=? c) && (c <=? 70))%N then Some (c - 55)%N
  else None.

Definition hex4 (a b c d : N) : option N :=
  match hexValue a, hexValue b, hexValue c, hexValue d with
  | Some x, Some y, Some z, Some w => Some (((x * 16 + y) * 16 + z) * 16 + w)%N
  | _, _, _, _ => None
  end.

(** The one-character escapes of a JSON string. *)
Definition simpleEscape (e : N) : option N :=
  if (e =? 34)%N then Some 34%N
  else if (e =? 92)%N then Some 92%N
  else if (e =? 47)%N then Some 47%N
  else if (e =? 98)%N then Some 8%N
  else if (e =? 102)%N then Some 12%N
  else if (e =? 110)%N then Some 10%N
  else if (e =? 114)%N then Some 13%N
  else if (e =? 116)%N then Some 9%N
  else None.

(** The characters of a JSON string after its opening quote, up to and
    including the closing one. *)
Fixpoint parseStringBody (s acc : jsstring) : option (jsstring * jsstring) :=
  match s with
  | [] => None
  | c :: r =>
      if (c =? 34)%N then Some (rev acc, r)
      else if (c =? 92)%N then
        match r with
        | [] => None
        | e :: r1 =>
            if (e =? 117)%N then
              match r1 with
              | h1 :: h2 :: h3 :: h4 :: r2 =>
                  match hex4 h1 h2 h3 h4 with
                  | Some u => parseStringBody r2 (u :: acc)
                  | None => None
                  end
              | _ => None
              end
            else
              match simpleEscape e with
              | Some u => parseStringBody r1 (u :: acc)
              | None => None
              end
        end
      else if (c <? 32)%N then None
      else parseStringBody r (c :: acc)
  end.

Definition parseDigits1 (s : jsstring) : option (jsstring * jsstring) :=
  match spanDigits s with
  | ([], _) => None
  | (ds, r) => Some (ds, r)
  end.

(** A JSON number: an optional minus sign, an integer part (a single zero,
    or a non-zero digit followed by digits), an optional fraction (a point
    and one digit or more) and an optional exponent (e or E, an optional
    sign, one digit or more). Its lexeme is kept: no property of the
    orchestrator reads its value. *)
Definition parseNumber (s : jsstring) : option (jsstring * jsstring) :=
  let '(sign, s1) :=
    match s with
    | c :: r => if (c =? 45)%N then ([c], r) else ([], s)
    | [] => ([], s)
    end in
  let int :=
    match s1 with
    | c :: r =>
        if (c =? 48)%N then Some ([c], r)
        else if isDigit c then let '(ds, r') := spanDigits r in Some (c :: ds, r')
        else None
    | [] => None
    end in
  match int with
  | None => None
  | Some (i, s2) =>
      let frac :=
        match s2 with
        | c :: r =>
            if (c =? 46)%N then
              match parseDigits1 r with
              | Some (ds, r') => Some (c :: ds, r')
              | None => None
              end
            else Some ([], s2)
        | [] => Some ([], s2)
        end in
      match frac with
      | None => None
      | Some (f, s3) =>
          let exp :=
            match s3 with
            | c :: r =>
                if ((c =? 101) || (c =? 69))%N then
                  let '(sg, r0) :=
                    match r with
                    | d :: r' =>
                        if ((d =? 43) || (d =? 45))%N then ([d], r') else ([], r)
                    | [] => ([], r)
                    end in
                  match parseDigits1 r0 with
                  | Some (ds, r') => Some (c :: sg ++ ds, r')
                  | None => None
                  end
                else Some ([], s3)
            | [] => Some ([], s3)
            end in
          match exp with
          | None => None
          | Some (e, s4) => Some (sign ++ i ++ f ++ e, s4)
          end
      end
  end.

Fixpoint stripPrefix (p s : jsstring) : option jsstring :=
  match p, s with
  | [], _ => Some s
  | a :: p', b :: s' => if (a =? b)%N then stripPrefix p' s' else None
  | _ :: _, [] => None
  end.

(** One JSON value at the head of [s] (after whitespace), and what follows it.
    [fuel] bounds the nesting and the number of items read. *)
Fixpoint parseValue (fuel : nat) (s : jsstring) : option (json * jsstring) :=
  match fuel with
  | O => None
  | S fuel' =>
      match skipWs s with
      | [] => None
      | c :: r =>
          if (c =? 123)%N then
            match skipWs r with
            | c' :: r' =>
                if (c' =? 125)%N then Some (JObject [], r')
                else parseMembers fuel' r []
            | [] => None
            end
          else if (c =? 91)%N then
            match skipWs r with
            | c' :: r' =>
                if (c' =? 93)%N then Some (JArray [], r')
                else parseElements fuel' r []
            | [] => None
            end
          else if (c =? 34)%N then
            match parseStringBody r [] with
            | Some (str, r') => Some (JString str, r')
            | None => None
            end
          else
            match stripPrefix (js "true") (c :: r) with
            | Some r' => Some (JBool true, r')
            | None =>
                match stripPrefix (js "false") (c :: r) with
                | Some r' => Some (JBool false, r')
                | None =>
                    match stripPrefix (js "null") (c :: r) with
                    | Some r' => Some (JNull, r')
                    | None =>
                        match parseNumber (c :: r) with
                        | Some (n, r') => Some (JNumber n, r')
                        | None => None
                        end
                    end
                end
            end
      end
  end
with parseElements (fuel : nat) (s : jsstring) (acc : list json)
  : option (json * jsstring) :=
  match fuel with
  | O => None
  | S fuel' =>
      match parseValue fuel' s with
      | None => None
      | Some (v, r) =>
          match skipWs r with
          | c :: r' =>
              if (c =? 44)%N then parseElements fuel' r' (v :: acc)
              else if (c =? 93)%N then Some (JArray (rev (v :: acc)), r')
              else None
          | [] => None
          end
      end
  end
with parseMembers (fuel : nat) (s : jsstring) (acc : list (jsstring * json))
  : option (json * jsstring) :=
  match fuel with
  | O => None
  | S fuel' =>
      match skipWs s with
      | q :: r0 =>
          if (q =? 34)%N then
            match parseStringBody r0 [] with
            | None => None
            | Some (key, r1) =>
                match skipWs r1 with
                | colon :: r2 =>
                    if (colon =? 58)%N then
                      match parseValue fuel' r2 with
                      | None => None
                      | Some (v, r3) =>
                          match skipWs r3 with
                          | c :: r4 =>
                              if (c =? 44)%N
                              then parseMembers fuel' r4 ((key, v) :: acc)
                              else if (c =? 125)%N
                              then Some (JObject (rev ((key, v) :: acc)), r4)
                              else None
                          | [] => None
                          end
                      end
                    else None
                | [] => None
                end
            end
          else None
      | [] => None
      end
  end.

(** [JSON.parse(text)]: [None] is a thrown SyntaxError. Every call below
    consumes a code unit before it recurses, so twice the length is fuel
    enough. *)
Definition JSON_parse (text : jsstring) : option json :=
  match parseValue (2 * length text + 2) text with
  | Some (v, r) => match skipWs r with [] => Some v | _ :: _ => None end
  | None => None
  end.

(** The last member named [k]: a repeated key of a JSON text keeps its last
    value. *)
Fixpoint lastMember (k : jsstring) (ms : list (jsstring * json)) : option json :=
  match ms with
  | [] => None
  | (k', v) :: rest =>
      match lastMember k rest with
      | Some v' => Some v'
      | None => if decide (k' = k) then Some v else None
      end
  end.

(** What [typeof v.session_id === "string"] finds on a parsed value: reading
    a property of [null] throws a TypeError; only an object parsed from JSON
    can own a property of that name. *)
Inductive sidRead :=
| SidThrows
| SidAbsent
| SidString (s : jsstring).

Definition readSessionId (v : json) : sidRead :=
  match v with
  | JNull => SidThrows
  | JObject ms =>
      match lastMember (js "session_id") ms with
      | Some (JString s) => SidString s
      | _ => SidAbsent
      end
  | _ => SidAbsent
  end.

End Js.

(** ** claude.ts: the continuation token of the agent's output *)

Module Claude.
Import Js.

(** The result of one agent invocation ([ClaudeResult] of types.ts);
    [sessionId] is [None] where the source has [undefined]. *)
Record ClaudeResult := {
  exitCode : Z;
  stdout : jsstring;
  stderr : jsstring;
  sessionId : option jsstring;
}.

Section ExtractSessionId.

(** [JSON.parse] is the platform's: the development is stated for any parser
    and evaluated with [Js.JSON_parse]. *)
Variable parse : jsstring -> option json.

(** [stdout.trim().split("\n").filter(Boolean)] *)
Definition outputLines (stdout : jsstring) : list jsstring :=
  List.filter truthy (split LF (trim stdout)).

(** The string [session_id] of a line, if the line parses and carries one. *)
Definition lineSessionId (line : jsstring) : option jsstring :=
  match parse line with
  | Some v =>
      match readSessionId v with
      | SidString s => Some s
      | _ => None
      end
  | None => None
  end.

(** The loop [for (let i = lines.length - 2; i >= 0; i--)], over the earlier
    lines taken from the last one back: a line that fails to parse, or whose
    property read throws, is skipped by the inner [catch]. *)
Fixpoint scanBack (earlierReversed : list jsstring) : option jsstring :=
  match earlierReversed with
  | [] => None
  | line :: rest =>
      match parse line with
      | Some obj =>
          match readSessionId obj with
          | SidString s => Some s
          | SidAbsent => scanBack rest
          | SidThrows => scanBack rest
          end
      | None => scanBack rest
      end
  end.

(** [extractSessionId(stdout)]. The outer [try] covers the parse of the last
    line and the read of its property: when either throws, the outer [catch]
    is reached and the function returns [undefined]. *)
Definition extractSessionId (stdout : jsstring) : option jsstring :=
  let lines := outputLines stdout in
  match rev lines with
  | [] => None
  | lastLine :: earlierReversed =>
      match parse lastLine with
      | None => None
      | Some parsed =>
          match readSessionId parsed with
          | SidString s => Some s
          | SidThrows => None
          | SidAbsent => scanBack earlierReversed
          end
      end
  end.

End ExtractSessionId.

End Claude.

(** ** A backtracking matcher for the regular expression of task-handler.ts *)

Module Regex.
Import Js.

(** The atoms the pattern uses: a literal code unit, [\s] and [.]. *)
Inductive atom :=
| Lit (c : N)
| Space
| Dot.

Definition atomMatches (a : atom) (c : N) : bool :=
  match a with
  | Lit d => (c =? d)%N
  | Space => isWhiteSpace c
  | Dot => negb (isLineTerminator c)
  end.

(** The items of a pattern, read left to right: one atom, [a*] (greedy),
    [a+] (greedy), [a+?] (lazy), and the parentheses of a capture group. *)
Inductive item :=
| One (a : atom)
| Star (a : atom)
| Plus (a : atom)
| PlusLazy (a : atom)
| Open
| Close.

(** The matcher's state: what is left of the input, the input at the opening
    of the current group, and the groups captured so far (latest first). *)
Record mstate := {
  input : jsstring;
  groupStart : jsstring;
  captured : list jsstring;
}.

Section Repeat.
Context {R : Type}.

(** [a*], greedy: as many as possible first, then one fewer on backtracking. *)
Fixpoint starGreedy (a : atom) (s : jsstring) (k : jsstring -> option R)
  : option R :=
  match s with
  | c :: r =>
      if atomMatches a c then
        match starGreedy a r k with
        | Some x => Some x
        | None => k s
        end
      else k s
  | [] => k s
  end.

(** [a*?], lazy: as few as possible first, then one more on backtracking. *)
Fixpoint starLazy (a : atom) (s : jsstring) (k : jsstring -> option R)
  : option R :=
  match k s with
  | Some x => Some x
  | None =>
      match s with
      | c :: r => if atomMatches a c then starLazy a r k else None
      | [] => None
      end
  end.

Definition one (a : atom) (s : jsstring) (k : jsstring -> option R)
  : option R :=
  match s with
  | c :: r => if atomMatches a c then k r else None
  | [] => None
  end.

End Repeat.

(** Matches the items at the head of the state's input, in the priority order
    of a backtracking engine; the result is the state at the end of the
    match. *)
Fixpoint run (items : list item) (st : mstate) : option mstate :=
  let continue rest := fun s =>
    run rest {| input := s; groupStart := groupStart st; captured := captured st |} in
  match items with
  | [] => Some st
  | One a :: rest => one a (input st) (continue rest)
  | Star a :: rest => starGreedy a (input st) (continue rest)
  | Plus a :: rest =>
      one a (input st) (fun s => starGreedy a s (continue rest))
  | PlusLazy a :: rest =>
      one a (input st) (fun s => starLazy a s (continue rest))
  | Open :: rest =>
      run rest {| input := input st; groupStart := input st; captured := captured st |}
  | Close :: rest =>
      let text := take (length (groupStart st) - length (input st)) (groupStart st) in
      run rest {| input := input st; groupStart := groupStart st;
                  captured := text :: captured st |}
  end.

(** One [exec] of a pattern from the current [lastIndex]: the leftmost
    position where the pattern matches; the groups in order, and the input
    after the match (the next [lastIndex]). *)
Fixpoint exec (items : list item) (s : jsstring)
  : option (list jsstring * jsstring) :=
  match run items {| input := s; groupStart := s; captured := [] |} with
  | Some st => Some (rev (captured st), input st)
  | None =>
      match s with
      | _ :: r => exec items r
      | [] => None
      end
  end.

(** The loop [while ((match = pattern.exec(output)) !== null)] of a global
    pattern whose matches are never empty. *)
Fixpoint execAll (fuel : nat) (items : list item) (s : jsstring)
  : list (list jsstring) :=
  match fuel with
  | O => []
  | S fuel' =>
      match exec items s with
      | None => []
      | Some (groups, rest) => groups :: execAll fuel' items rest
      end
  end.

End Regex.

(** ** task-handler.ts: decision points *)

Module DecisionPoints.
Import Js Regex.

Record DecisionPoint := {
  description : jsstring;
  chosen : jsstring;
  rejected : jsstring;
}.

Definition marker : jsstring := js "[DECISION_POINT]".
Definition BAR : N := 124.

(** [/\[DECISION_POINT\]\s*(.+?)\s*\|\s*(.+?)\s*\|\s*(.+)/g] *)
Definition pattern : list item :=
  List.map (fun c => One (Lit c)) marker
  ++ [Star Space; Open; PlusLazy Dot; Close; Star Space; One (Lit BAR);
      Star Space; Open; PlusLazy Dot; Close; Star Space; One (Lit BAR);
      Star Space; Open; Plus Dot; Close].

(** [extractDecisionPoints(output)]: one record per match, from the groups
    1, 2 and 3. *)
Definition extractDecisionPoints (output : jsstring) : list DecisionPoint :=
  omap (fun groups =>
          match groups with
          | [d; c; r] => Some {| description := d; chosen := c; rejected := r |}
          | _ => None
          end)
       (execAll (S (length output)) pattern output).

(** The reading of the specification: a line that starts with the marker,
    its remainder split on the bar and each field trimmed. *)
Definition splitFields (line : jsstring) : option DecisionPoint :=
  match stripPrefix marker line with
  | Some rest =>
      match List.map trim (split BAR rest) with
      | [d; c; r] => Some {| description := d; chosen := c; rejected := r |}
      | _ => None
      end
  | None => None
  end.

Definition decisionPointsBySplitting (output : jsstring) : list DecisionPoint :=
  omap splitFields (split LF output).

End DecisionPoints.

(** ** types.ts *)

Module Types.
Import Js.

Record TrackedIssue := {
  number : Z;
  title : jsstring;
  body : jsstring;
  labels : list jsstring;
}.

(** [ReviewComment]; its [id] and [body] are [commentId] and [commentBody]
    here, apart from the fields of [TrackedIssue]. *)
Record ReviewComment := {
  commentId : Z;
  prNumber : Z;
  commentBody : jsstring;
  user : jsstring;
  path : option jsstring;
  line : option Z;
  createdAt : jsstring;
}.

Inductive TaskStatus := Pending | InProgress | Completed | Failed.

Inductive TaskType := Issue | Review.

#[global] Instance TaskStatus_eq_dec : EqDecision TaskStatus.
Proof. solve_decision. Defined.

(** A JavaScript number that holds a count or a limit: an integer, or NaN
    (what [parseInt] gives on a malformed MAX_CONCURRENCY). *)
Inductive number_ := Num (z : Z) | NaN.

(** The part of [Config] the handlers read: [config.claude.allowedTools]. *)
Record Config := {
  claudeAllowedTools : list jsstring;
}.

(** The decimal rendering of an integer in a template literal. *)
Definition dec (z : Z) : jsstring := js (pretty z).

End Types.

(** ** worker-pool.ts *)

Module WorkerPool.
Import Js Types.

(** [WorkerTask]; [aborted] is the state of the task's own AbortController. *)
Record WorkerTask := {
  id : jsstring;
  type : TaskType;
  issueNumber : Z;
  taskPrNumber : option Z;
  status : TaskStatus;
  aborted : bool;
}.

Definition setStatus (s : TaskStatus) (t : WorkerTask) : WorkerTask :=
  {| id := id t; type := type t; issueNumber := issueNumber t;
     taskPrNumber := taskPrNumber t; status := s; aborted := aborted t |}.

(** The pool: the private registry [tasks] (a Map keyed by task id) and the
    limit given to the constructor. *)
Record WorkerPool := {
  tasks : gmap jsstring WorkerTask;
  maxConcurrency : number_;
}.

(** [new WorkerPool(maxConcurrency)] *)
Definition new (maxConcurrency : number_) : WorkerPool :=
  {| tasks := ∅; maxConcurrency := maxConcurrency |}.

Definition isInProgress (t : WorkerTask) : bool :=
  bool_decide (status t = InProgress).

(** [[...this.tasks.values()]], in some order. *)
Definition values (p : WorkerPool) : list WorkerTask :=
  (map_to_list (tasks p)).*2.

Definition activeCount (p : WorkerPool) : nat :=
  length (List.filter isInProgress (values p)).

(** [this.activeCount < this.maxConcurrency]; a comparison with NaN is
    false. *)
Definition canAccept (p : WorkerPool) : bool :=
  match maxConcurrency p with
  | Num m => (Z.of_nat (activeCount p) <? m)%Z
  | NaN => false
  end.

Definition has (taskId : jsstring) (p : WorkerPool) : bool :=
  match tasks p !! taskId with
  | Some task =>
      bool_decide (status task = InProgress) || bool_decide (status task = Pending)
  | None => false
  end.

(** [submit]: the pool after the call, and the handler when the call invoked
    it ([None] when the call returned early). The handler runs on its own
    from there; its settlement is [settled] below. *)
Definition submit {H : Type} (taskId : jsstring) (type : TaskType)
    (issueNumber : Z) (handler : H) (prNumber : option Z) (p : WorkerPool)
  : WorkerPool * option H :=
  if negb (canAccept p) then (p, None)
  else if has taskId p then (p, None)
  else
    let task := {| id := taskId; type := type; issueNumber := issueNumber;
                   taskPrNumber := prNumber; status := InProgress;
                   aborted := false |} in
    ({| tasks := <[taskId := task]> (tasks p);
        maxConcurrency := maxConcurrency p |},
     Some handler).

Definition updateStatus (taskId : jsstring) (s : TaskStatus) (p : WorkerPool)
  : WorkerPool :=
  match tasks p !! taskId with
  | Some task =>
      {| tasks := <[taskId := setStatus s task]> (tasks p);
         maxConcurrency := maxConcurrency p |}
  | None => p
  end.

(** The reactions [submit] attaches to the handler's promise: [then] marks
    the task completed, [catch] marks it failed. *)
Definition settled (taskId : jsstring) (fulfilled : bool) (p : WorkerPool)
  : WorkerPool :=
  updateStatus taskId (if fulfilled then Completed else Failed) p.

Definition cancelTask (t : WorkerTask) : WorkerTask :=
  if isInProgress t then
    {| id := id t; type := type t; issueNumber := issueNumber t;
       taskPrNumber := taskPrNumber t; status := Failed; aborted := true |}
  else t.

Definition cancelAll (p : WorkerPool) : WorkerPool :=
  {| tasks := cancelTask <$> tasks p; maxConcurrency := maxConcurrency p |}.

(** *** The pool in use

    The pool together with the handlers that [submit] invoked and whose
    promise has not settled yet (each under the task id it was submitted
    with). [waitForAll] changes the registry only through [cancelAll]. *)
Record running (H : Type) := {
  pool : WorkerPool;
  inFlight : list (jsstring * H);
}.
Arguments pool {H} _.
Arguments inFlight {H} _.

Inductive op (H : Type) :=
| Submit (taskId : jsstring) (type : TaskType) (issueNumber : Z) (handler : H)
         (prNumber : option Z)
| Settle (taskId : jsstring) (fulfilled : bool)
| CancelAll.
Arguments Submit {H} _ _ _ _ _.
Arguments Settle {H} _ _.
Arguments CancelAll {H}.

(** Removes the first handler in flight under [taskId], if there is one. *)
Fixpoint takeHandler {H : Type} (taskId : jsstring) (hs : list (jsstring * H))
  : option (list (jsstring * H)) :=
  match hs with
  | [] => None
  | (k, h) :: rest =>
      if decide (k = taskId) then Some rest
      else match takeHandler taskId rest with
           | Some rest' => Some ((k, h) :: rest')
           | None => None
           end
  end.

(** One operation. A settlement happens only for a handler in flight. *)
Definition step {H : Type} (o : op H) (s : running H) : running H :=
  match o with
  | Submit taskId type issueNumber handler prNumber =>
      match submit taskId type issueNumber handler prNumber (pool s) with
      | (p, Some h) => {| pool := p; inFlight := inFlight s ++ [(taskId, h)] |}
      | (p, None) => {| pool := p; inFlight := inFlight s |}
      end
  | Settle taskId fulfilled =>
      match takeHandler taskId (inFlight s) with
      | Some rest =>
          {| pool := settled taskId fulfilled (pool s); inFlight := rest |}
      | None => s
      end
  | CancelAll => {| pool := cancelAll (pool s); inFlight := inFlight s |}
  end.

Definition start (H : Type) (maxConcurrency : number_) : running H :=
  {| pool := new maxConcurrency; inFlight := [] |}.

(** The states a pool built with [maxConcurrency] can be in. *)
Inductive reachable {H : Type} (maxConcurrency : number_) : running H -> Prop :=
| reachable_start : reachable maxConcurrency (start H maxConcurrency)
| reachable_step o s :
    reachable maxConcurrency s -> reachable maxConcurrency (step o s).

(** The tasks of the registry that carry the key [k] and count as active
    (pending or in progress). *)
Definition isActive (t : WorkerTask) : bool :=
  bool_decide (status t = InProgress) || bool_decide (status t = Pending).

Definition activeWithKey (k : jsstring) (p : WorkerPool) : list WorkerTask :=
  List.filter (fun t => bool_decide (id t = k) && isActive t) (values p).

End WorkerPool.

(** ** The collaborators, and the runs of the orchestrator's own code *)

Module Run.
Import Js Types Claude DecisionPoints.

(** What a rejected promise carries: an Error of a collaborator with its
    message, or the Error the handlers throw on a non-zero exit of the agent
    (its message embeds the exit code). *)
Inductive error :=
| Thrown (message : jsstring)
| ClaudeExit (exitCode : Z)
| TypeError.

(** The comments the handlers post, each a fixed template of its handler
    with the values it embeds: the start of an implementation; the link to
    the change request with the session id; the failure of an implementation
    with the error's message; the start of a review with the number of
    comments; the push of a review; the failure of a review with the error's
    message. *)
Inductive message :=
| ImplementStarted
| PullRequestCreated (prNumber : Z) (sessionId : option jsstring)
| ImplementFailed (reason : error)
| ReviewStarted (commentCount : nat)
| ReviewPushed
| ReviewFailed (reason : error).

(** The instruction given to the agent, with what its template embeds. *)
Inductive prompt :=
| IssuePrompt (issue : TrackedIssue) (todoContent : jsstring)
| ReviewPrompt (comments : list ReviewComment).

(** The body of a change request, with what [buildPRBody] embeds. *)
Record prBody := {
  closes : Z;
  issueTitle : jsstring;
  decisionPoints : list DecisionPoint;
  bodySessionId : option jsstring;
}.

(** [ClaudeRunOptions] of claude.ts; the abort signal is the task's own and
    acts through the world's answer. *)
Record ClaudeRunOptions := {
  optPrompt : prompt;
  cwd : jsstring;
  resumeSessionId : option jsstring;
  allowedTools : option (list jsstring);
}.

(** What the [close] event of the agent's process delivers. *)
Record processExit := {
  code : option Z;
  out : jsstring;
  err : jsstring;
}.

(** The calls that leave the process: the tracker client (github.ts), git
    and the file system, and the agent subprocess. *)
Inductive call : Type -> Type :=
| FetchLabeledIssues (label : jsstring) : call (list TrackedIssue)
| FetchReviewComments (since : jsstring) : call (list ReviewComment)
| CreatePullRequest (title : jsstring) (body : prBody) (head : jsstring) : call Z
| PostComment (issueNumber : Z) (body : message) : call unit
| AddLabel (issueNumber : Z) (label : jsstring) : call unit
| RemoveLabel (issueNumber : Z) (label : jsstring) : call unit
| GetPRBranch (prNumber : Z) : call jsstring
| ExecFile (file : jsstring) (args : list jsstring) (dir : jsstring) : call unit
| ReadFile (file : jsstring) : call jsstring
| Spawn (options : ClaudeRunOptions) : call processExit.

(** The reads of the clock; they cannot fail. *)
Inductive clock : Type -> Type :=
| NewDateISO : clock jsstring
| DateNow : clock Z.

Inductive event :=
| Called {A : Type} (c : call A) (reply : error + A)
| Read {A : Type} (q : clock A) (value : A).

(** An invocation of the agent. *)
Definition isSpawn (e : event) : bool :=
  match e with
  | Called (Spawn _) _ => true
  | _ => false
  end.

(** The world answers each call, knowing everything that happened before. *)
Record World := {
  answer : forall A : Type, list event -> call A -> error + A;
  time : forall A : Type, list event -> clock A -> A;
}.

(** The handlers a pool runs: the closures the poller submits. *)
Inductive job :=
| ImplementJob (issue : TrackedIssue)
| ReviewJob (prNumber : Z) (comments : list ReviewComment).

(** The state of the process: what happened so far, the pool with the
    handlers it started, the poller's [lastPollTime] and the module-level
    [sessionStore] of review-handler.ts. *)
Record process := {
  history : list event;
  workerPool : WorkerPool.running job;
  lastPollTime : jsstring;
  sessionStore : gmap Z (list N);
}.

Definition withHistory (h : list event) (s : process) : process :=
  {| history := h; workerPool := workerPool s;
     lastPollTime := lastPollTime s; sessionStore := sessionStore s |}.

Definition withPool (p : WorkerPool.running job) (s : process) : process :=
  {| history := history s; workerPool := p;
     lastPollTime := lastPollTime s; sessionStore := sessionStore s |}.

Definition withLastPollTime (t : jsstring) (s : process) : process :=
  {| history := history s; workerPool := workerPool s;
     lastPollTime := t; sessionStore := sessionStore s |}.

Definition withSessionStore (m : gmap Z (list N)) (s : process) : process :=
  {| history := history s; workerPool := workerPool s;
     lastPollTime := lastPollTime s; sessionStore := m |}.

(** An asynchronous function: from a state to the state it leaves and either
    the value it resolves with or the error it rejects with. *)
Definition M (A : Type) : Type := process -> process * (error + A).

Definition ret {A : Type} (a : A) : M A := fun s => (s, inr a).

Definition throw {A : Type} (e : error) : M A := fun s => (s, inl e).

Definition bind {A B : Type} (m : M A) (k : A -> M B) : M B :=
  fun s =>
    match m s with
    | (s', inr a) => k a s'
    | (s', inl e) => (s', inl e)
    end.

Declare Scope run_scope.
Delimit Scope run_scope with run.
Notation "'let*' x ':=' m 'in' k" := (bind m (fun x => k))
  (at level 10, x name, m at level 100, k at level 200) : run_scope.
Local Open Scope run_scope.

(** [try { body } catch (err) { handler }] *)
Definition tryCatch {A : Type} (body : M A) (handler : error -> M A) : M A :=
  fun s =>
    match body s with
    | (s', inl e) => handler e s'
    | (s', inr a) => (s', inr a)
    end.

(** [try { body } finally { cleanup }] *)
Definition tryFinally {A : Type} (body : M A) (cleanup : M unit) : M A :=
  fun s =>
    let '(s', r) := body s in
    match cleanup s' with
    | (s'', inl e) => (s'', inl e)
    | (s'', inr _) => (s'', r)
    end.

(** [promise.catch(() => {})]: the failure is dropped. *)
Definition swallow (m : M unit) : M unit :=
  fun s => let '(s', _) := m s in (s', inr tt).

Definition get {A : Type} (f : process -> A) : M A := fun s => (s, inr (f s)).

Definition modify (f : process -> process) : M unit := fun s => (f s, inr tt).

Section World.
Variable w : World.

(** [await] of a call: the world's answer is recorded and returned. *)
Definition perform {A : Type} (c : call A) : M A :=
  fun s =>
    let r := answer w A (history s) c in
    (withHistory (history s ++ [Called c r]) s, r).

Definition readClock {A : Type} (q : clock A) : M A :=
  fun s =>
    let v := time w A (history s) q in
    (withHistory (history s ++ [Read q v]) s, inr v).

(** [runClaude(options)] of claude.ts: rejects when the process cannot start
    or the task was cancelled before it did; otherwise resolves, whatever the
    exit code, with [code ?? 1] and the session id read from the output. *)
Definition runClaude (options : ClaudeRunOptions) : M ClaudeResult :=
  let* p := perform (Spawn options) in
  ret {| exitCode := default 1%Z (code p);
         stdout := out p;
         stderr := err p;
         sessionId := extractSessionId JSON_parse (out p) |}.

End World.

Definition GIT : jsstring := js "git".

(** [path.join] of normalised segments. *)
Fixpoint pathJoin (segments : list jsstring) : jsstring :=
  match segments with
  | [] => js "."
  | [s] => s
  | s :: rest => s ++ js "/" ++ pathJoin rest
  end.

End Run.

(** ** task-handler.ts: the Implement task *)

Module TaskHandler.
Import Js Types Claude DecisionPoints Run.
Local Open Scope run_scope.

(** [LABELS] *)
Definition LABELS_trigger : jsstring := js "auto-implement".
Definition LABELS_inProgress : jsstring := js "auto-in-progress".
Definition LABELS_failed : jsstring := js "auto-failed".

Section Handler.
Variable w : World.
Variable config : Config.
Variable repoRoot : jsstring.

Definition branchOf (issue : TrackedIssue) : jsstring :=
  js "auto/issue-" ++ dec (number issue).

Definition worktreeOf (issue : TrackedIssue) : jsstring :=
  pathJoin [repoRoot; js ".worktrees"; js "issue-" ++ dec (number issue)].

(** [config.claude.allowedTools.length > 0 ? ... : undefined] *)
Definition toolsOption : option (list jsstring) :=
  match claudeAllowedTools config with
  | [] => None
  | tools => Some tools
  end.

(** [createWorktree]: the remote branch if it can be fetched and checked
    out, a new branch from main otherwise. *)
Definition createWorktree (worktreePath branchName : jsstring) : M unit :=
  tryCatch
    (let* _ := perform w (ExecFile GIT [js "fetch"; js "origin"; branchName] repoRoot) in
     let* _ := perform w (ExecFile GIT
                 [js "worktree"; js "add"; worktreePath; js "origin/" ++ branchName]
                 repoRoot) in
     perform w (ExecFile GIT
       [js "checkout"; js "-B"; branchName; js "origin/" ++ branchName]
       worktreePath))
    (fun _ =>
       perform w (ExecFile GIT
         [js "worktree"; js "add"; js "-b"; branchName; worktreePath; js "main"]
         repoRoot)).

(** [buildPrompt]: a todo.md that cannot be read is left out. *)
Definition buildPrompt (issue : TrackedIssue) : M prompt :=
  let* todoContent :=
    tryCatch (perform w (ReadFile (pathJoin [repoRoot; js "docs/todo/todo.md"])))
             (fun _ => ret []) in
  ret (IssuePrompt issue todoContent).

Definition buildPRBody (issue : TrackedIssue) (claudeOutput : jsstring)
    (sessionId : option jsstring) : prBody :=
  {| closes := number issue;
     issueTitle := title issue;
     decisionPoints := extractDecisionPoints claudeOutput;
     bodySessionId := sessionId |}.

Definition gitPush (worktreePath branchName : jsstring) : M unit :=
  perform w (ExecFile GIT [js "push"; js "-u"; js "origin"; branchName] worktreePath).

Definition removeWorktree (worktreePath : jsstring) : M unit :=
  perform w (ExecFile GIT
    [js "worktree"; js "remove"; worktreePath; js "--force"] repoRoot).

(** The steps of the [try] block before the agent is invoked. *)
Definition beforeAgent (issue : TrackedIssue) : M prompt :=
  let* _ := perform w (RemoveLabel (number issue) LABELS_trigger) in
  let* _ := perform w (AddLabel (number issue) LABELS_inProgress) in
  let* _ := perform w (PostComment (number issue) ImplementStarted) in
  let* _ := createWorktree (worktreeOf issue) (branchOf issue) in
  buildPrompt issue.

Definition agentOptions (issue : TrackedIssue) (p : prompt) : ClaudeRunOptions :=
  {| optPrompt := p; cwd := worktreeOf issue; resumeSessionId := None;
     allowedTools := toolsOption |}.

(** The steps of the [try] block from the agent's result on. *)
Definition afterAgent (issue : TrackedIssue) (result : ClaudeResult) : M unit :=
  if (exitCode result =? 0)%Z then
    let* _ := gitPush (worktreeOf issue) (branchOf issue) in
    let* prNumber :=
      perform w (CreatePullRequest
                   (js "feat: #" ++ dec (number issue) ++ js " " ++ title issue)
                   (buildPRBody issue (stdout result) (sessionId result))
                   (branchOf issue)) in
    let* _ := perform w (PostComment (number issue)
                           (PullRequestCreated prNumber (sessionId result))) in
    perform w (RemoveLabel (number issue) LABELS_inProgress)
  else throw (ClaudeExit (exitCode result)).

(** The [catch] block: three reports, each with its own [.catch(() => {})]. *)
Definition reportFailure (issue : TrackedIssue) (e : error) : M unit :=
  let* _ := swallow (perform w (RemoveLabel (number issue) LABELS_inProgress)) in
  let* _ := swallow (perform w (AddLabel (number issue) LABELS_failed)) in
  swallow (perform w (PostComment (number issue) (ImplementFailed e))).

(** [handle(issue, abortSignal)] *)
Definition handle (issue : TrackedIssue) : M unit :=
  tryFinally
    (tryCatch
       (let* p := beforeAgent issue in
        let* result := runClaude w (agentOptions issue p) in
        afterAgent issue result)
       (reportFailure issue))
    (swallow (removeWorktree (worktreeOf issue))).

End Handler.

(** *** What a run did, read off its events *)

Definition isGit (subcommand : list jsstring) (e : event) : bool :=
  match e with
  | Called (ExecFile file args _) _ =>
      bool_decide (file = GIT) && bool_decide (take (length subcommand) args = subcommand)
  | _ => false
  end.

(** The publish: [git push]. *)
Definition isPush : event -> bool := isGit [js "push"].

(** The workspace discard: [git worktree remove]. *)
Definition isDiscard : event -> bool := isGit [js "worktree"; js "remove"].

Definition isCreatePullRequest (e : event) : bool :=
  match e with
  | Called (CreatePullRequest _ _ _) _ => true
  | _ => false
  end.

Definition isAddLabel (n : Z) (label : jsstring) (e : event) : bool :=
  match e with
  | Called (AddLabel m l) _ => bool_decide (l = label) && bool_decide (m = n)
  | _ => false
  end.

Definition isRemoveLabel (n : Z) (label : jsstring) (e : event) : bool :=
  match e with
  | Called (RemoveLabel m l) _ => bool_decide (l = label) && bool_decide (m = n)
  | _ => false
  end.

(** A comment that reports a failure, on the item [n]. *)
Definition isErrorComment (n : Z) (e : event) : bool :=
  match e with
  | Called (PostComment m (ImplementFailed _)) _ => bool_decide (m = n)
  | Called (PostComment m (ReviewFailed _)) _ => bool_decide (m = n)
  | _ => false
  end.

Definition count (f : event -> bool) (events : list event) : nat :=
  length (List.filter f events).

(** The events a run added to the history it started from. *)
Definition eventsSince (before after : process) : list event :=
  drop (length (history before)) (history after).

End TaskHandler.

(** ** review-handler.ts: the Review task *)

Module ReviewHandler.
Import Js Types Claude Run.
Local Open Scope run_scope.

Section Handler.
Variable w : World.
Variable config : Config.
Variable repoRoot : jsstring.

Definition worktreeOf (prNumber : Z) : jsstring :=
  pathJoin [repoRoot; js ".worktrees"; js "review-pr-" ++ dec prNumber].

Definition toolsOption : option (list jsstring) :=
  match claudeAllowedTools config with
  | [] => None
  | tools => Some tools
  end.

(** [createWorktree]: the existing remote branch, checked out. *)
Definition createWorktree (worktreePath branchName : jsstring) : M unit :=
  let* _ := perform w (ExecFile GIT [js "fetch"; js "origin"; branchName] repoRoot) in
  let* _ := perform w (ExecFile GIT
              [js "worktree"; js "add"; worktreePath; js "origin/" ++ branchName]
              repoRoot) in
  perform w (ExecFile GIT
    [js "checkout"; js "-B"; branchName; js "origin/" ++ branchName]
    worktreePath).

Definition removeWorktree (worktreePath : jsstring) : M unit :=
  perform w (ExecFile GIT
    [js "worktree"; js "remove"; worktreePath; js "--force"] repoRoot).

Definition buildPrompt (comments : list ReviewComment) : prompt :=
  ReviewPrompt comments.

(** [if (result.sessionId) sessionStore.set(prNumber, result.sessionId)]:
    an absent or empty session id is falsy. *)
Definition saveSession (prNumber : Z) (result : ClaudeResult) : M unit :=
  match sessionId result with
  | Some sid =>
      if truthy sid
      then modify (fun s => withSessionStore (<[prNumber := sid]> (sessionStore s)) s)
      else ret tt
  | None => ret tt
  end.

(** The [try] block. *)
Definition review (prNumber : Z) (comments : list ReviewComment)
    (branchName : jsstring) : M unit :=
  let* _ := createWorktree (worktreeOf prNumber) branchName in
  let* _ := perform w (PostComment prNumber (ReviewStarted (length comments))) in
  let p := buildPrompt comments in
  let* sessionId := get (fun s => sessionStore s !! prNumber) in
  let* result :=
    runClaude w {| optPrompt := p; cwd := worktreeOf prNumber;
                   resumeSessionId := sessionId; allowedTools := toolsOption |} in
  let* _ := saveSession prNumber result in
  if (exitCode result =? 0)%Z then
    let* _ := perform w (ExecFile GIT [js "push"; js "origin"; branchName]
                           (worktreeOf prNumber)) in
    perform w (PostComment prNumber ReviewPushed)
  else throw (ClaudeExit (exitCode result)).

(** [handle(prNumber, comments, abortSignal)]; the branch is resolved before
    the [try]. *)
Definition handle (prNumber : Z) (comments : list ReviewComment) : M unit :=
  let* branchName := perform w (GetPRBranch prNumber) in
  tryFinally
    (tryCatch
       (review prNumber comments branchName)
       (fun e => swallow (perform w (PostComment prNumber (ReviewFailed e)))))
    (swallow (removeWorktree (worktreeOf prNumber))).

End Handler.

(** The result the agent invocation of a run resolved with, read off the
    run's events: [None] when the agent was not invoked or the invocation
    rejected. A run invokes the agent at most once. *)
Fixpoint agentResult (events : list event) : option ClaudeResult :=
  match events with
  | [] => None
  | e :: rest =>
      match e with
      | @Called A c reply =>
          match c in call T return (error + T) -> option ClaudeResult with
          | Spawn _ => fun reply =>
              match reply with
              | inr p =>
                  Some {| exitCode := default 1%Z (code p); stdout := out p;
                          stderr := err p;
                          sessionId := extractSessionId JSON_parse (out p) |}
              | inl _ => None
              end
          | _ => fun _ => agentResult rest
          end reply
      | Read _ _ => agentResult rest
      end
  end.

(** The store a run leaves, given the store it found and the result of its
    agent invocation. *)
Definition storeAfter (prNumber : Z) (agent : option ClaudeResult)
    (store : gmap Z (list N)) : gmap Z (list N) :=
  match agent with
  | Some result =>
      match sessionId result with
      | Some sid => if truthy sid then <[prNumber := sid]> store else store
      | None => store
      end
  | None => store
  end.

End ReviewHandler.

(** ** poller.ts *)

Module Poller.
Import Js Types Run.
Local Open Scope run_scope.

(** The grouping of the comments by change request, in the order a Map
    iterates: by first occurrence, each group in arrival order. *)
Fixpoint addToGroup (c : ReviewComment) (groups : list (Z * list ReviewComment))
  : list (Z * list ReviewComment) :=
  match groups with
  | [] => [(prNumber c, [c])]
  | (k, cs) :: rest =>
      if decide (k = prNumber c) then (k, cs ++ [c]) :: rest
      else (k, cs) :: addToGroup c rest
  end.

Definition groupByPR (comments : list ReviewComment)
  : list (Z * list ReviewComment) :=
  fold_left (fun groups c => addToGroup c groups) comments [].

Section Poller.
Variable w : World.

(** [this.workerPool.submit(...)]: resolves at once; an accepted handler is
    in flight from here on. *)
Definition submit (taskId : jsstring) (type : TaskType) (issueNumber : Z)
    (handler : job) (prNumber : option Z) : M unit :=
  modify (fun s =>
    withPool (WorkerPool.step
                (WorkerPool.Submit taskId type issueNumber handler prNumber)
                (workerPool s)) s).

(** The loop of [pollIssues]: [continue] on a task already known, [break]
    on a full pool. *)
Fixpoint forEachIssue (issues : list TrackedIssue) : M unit :=
  match issues with
  | [] => ret tt
  | issue :: rest =>
      let taskId := js "issue-" ++ dec (number issue) in
      let* known := get (fun s => WorkerPool.has taskId (WorkerPool.pool (workerPool s))) in
      if known then forEachIssue rest
      else
        let* free := get (fun s => WorkerPool.canAccept (WorkerPool.pool (workerPool s))) in
        if negb free then ret tt
        else
          let* _ := submit taskId Issue (number issue) (ImplementJob issue) None in
          forEachIssue rest
  end.

Definition pollIssues : M unit :=
  let* issues := perform w (FetchLabeledIssues (js "auto-implement")) in
  match issues with
  | [] => ret tt
  | _ :: _ => forEachIssue issues
  end.

(** The loop of [pollReviewComments] over the groups. *)
Fixpoint forEachGroup (groups : list (Z * list ReviewComment)) : M unit :=
  match groups with
  | [] => ret tt
  | (prNumber, prComments) :: rest =>
      let* now := readClock w DateNow in
      let taskId := js "review-" ++ dec prNumber ++ js "-" ++ dec now in
      let* free := get (fun s => WorkerPool.canAccept (WorkerPool.pool (workerPool s))) in
      if negb free then ret tt
      else
        match prComments with
        | [] => throw TypeError
        | first :: _ =>
            let* _ := submit taskId Review (Types.prNumber first)
                        (ReviewJob prNumber prComments) (Some prNumber) in
            forEachGroup rest
        end
  end.

Definition pollReviewComments : M unit :=
  let* since := get lastPollTime in
  let* comments := perform w (FetchReviewComments since) in
  match comments with
  | [] => ret tt
  | _ :: _ => forEachGroup (groupByPR comments)
  end.

(** [poll]: one cycle. The single [catch] logs whatever the [try] threw. *)
Definition poll : M unit :=
  tryCatch
    (let* _ := pollIssues in
     let* _ := pollReviewComments in
     let* now := readClock w NewDateISO in
     modify (withLastPollTime now))
    (fun _ => ret tt).

End Poller.

(** The calls by which each scan starts. *)
Definition isFetchLabeledIssues (e : event) : bool :=
  match e with
  | Called (FetchLabeledIssues _) _ => true
  | _ => false
  end.

Definition isFetchReviewComments (e : event) : bool :=
  match e with
  | Called (FetchReviewComments _) _ => true
  | _ => false
  end.

End Poller.

(** ** Scenarios: concrete worlds and states the properties are run on *)

Module Scenarios.
Import Js Types Claude Run.

(** A successful answer to each call. *)
Definition succeed {A : Type} (c : call A) : A :=
  match c in call T return T with
  | FetchLabeledIssues _ => []
  | FetchReviewComments _ => []
  | CreatePullRequest _ _ _ => 7%Z
  | PostComment _ _ => tt
  | AddLabel _ _ => tt
  | RemoveLabel _ _ => tt
  | GetPRBranch _ => js "auto/issue-42"
  | ExecFile _ _ _ => tt
  | ReadFile _ => js "- [ ] todo"
  | Spawn _ => {| code := Some 0%Z; out := []; err := [] |}
  end.

Definition epoch {A : Type} (q : clock A) : A :=
  match q in clock T return T with
  | NewDateISO => js "2026-03-01T00:00:00.000Z"
  | DateNow => 1772323200000%Z
  end.

(** Every call succeeds until the agent has run; the agent exits with
    [exitCode], its output carrying the session id ["s2"]; every call after
    the agent has run fails. *)
Definition agentExits (exitCode : Z) : World :=
  {| answer := fun A h c =>
       match c in call T return error + T with
       | Spawn _ =>
           inr {| code := Some exitCode;
                  out := quoted "{'session_id':'s2'}";
                  err := [] |}
       | c' =>
           if existsb isSpawn h then inl (Thrown (js "network error"))
           else inr (succeed c')
       end;
     time := fun A _ q => epoch q |}.

(** The tracker cannot list the labelled items; everything else succeeds. *)
Definition trackerListingFails : World :=
  {| answer := fun A _ c =>
       match c in call T return error + T with
       | FetchLabeledIssues _ => inl (Thrown (js "rate limited"))
       | c' => inr (succeed c')
       end;
     time := fun A _ q => epoch q |}.

(** Everything succeeds, and nothing is there to do. *)
Definition quietWorld : World :=
  {| answer := fun A _ c => inr (succeed c);
     time := fun A _ q => epoch q |}.

Definition issue42 : TrackedIssue :=
  {| number := 42; title := js "Add a cache"; body := js "Cache the lookups.";
     labels := [js "auto-implement"] |}.

Definition noTools : Config := {| claudeAllowedTools := [] |}.

Definition root : jsstring := js "/app".

(** A process that has just started, with a pool of three. *)
Definition fresh : process :=
  {| history := [];
     workerPool := WorkerPool.start job (Num 3);
     lastPollTime := js "2026-02-28T00:00:00.000Z";
     sessionStore := ∅ |}.

(** The same, with a token stored for change request 7. *)
Definition withStoredToken : process :=
  withSessionStore {[ 7%Z := js "s1" ]} fresh.

End Scenarios.

(** * Properties *)

(** ** The continuation token of the agent's output *)

Module ClaudeProofs.
Import Js Claude.

Section AnyParser.
Variable parse : jsstring -> option json.

(** A line without a string [session_id] is passed over by the backward
    scan, whether it fails to parse, is [null], or lacks the field. *)
Lemma scanBack_skip line rest :
  lineSessionId parse line = None ->
  scanBack parse (line :: rest) = scanBack parse rest.
Proof.
  unfold lineSessionId. simpl.
  destruct (parse line) as [v|]; [|done].
  by destruct (readSessionId v).
Qed.

Lemma scanBack_found line rest s :
  lineSessionId parse line = Some s ->
  scanBack parse (line :: rest) = Some s.
Proof.
  unfold lineSessionId. simpl.
  destruct (parse line) as [v|]; [|done].
  by destruct (readSessionId v).
Qed.

Lemma scanBack_none ls :
  (forall l, In l ls -> lineSessionId parse l = None) ->
  scanBack parse ls = None.
Proof.
  induction ls as [|l ls IH]; intros Hall; [done|].
  rewrite scanBack_skip by (apply Hall; by left).
  apply IH. intros l' Hl'. apply Hall. by right.
Qed.

(** The scan returns the token of the latest earlier line that has one. *)
Lemma scanBack_latest before line after s :
  lineSessionId parse line = Some s ->
  (forall l, In l after -> lineSessionId parse l = None) ->
  scanBack parse (rev (before ++ line :: after)) = Some s.
Proof.
  intros Hline Hafter.
  rewrite rev_app_distr. cbn [rev]. rewrite <- app_assoc. cbn [app].
  induction after as [|a after IH] using rev_ind.
  - by apply scanBack_found.
  - rewrite rev_app_distr. cbn [rev app].
    rewrite scanBack_skip by (apply Hafter, in_or_app; right; by left).
    apply IH. intros l Hl. apply Hafter, in_or_app. by left.
Qed.

Lemma extractSessionId_lines stdout earlier lastLine :
  outputLines stdout = earlier ++ [lastLine] ->
  extractSessionId parse stdout =
    match parse lastLine with
    | None => None
    | Some parsed =>
        match readSessionId parsed with
        | SidString s => Some s
        | SidThrows => None
        | SidAbsent => scanBack parse (rev earlier)
        end
    end.
Proof.
  intros Hlines. unfold extractSessionId.
  rewrite Hlines, rev_app_distr. reflexivity.
Qed.

End AnyParser.

(** C8. On the output whose lines are [{"a":1}], [{"session_id":"s1"}] and
    [{"b":2}], the last line carries no session id and extraction, scanning
    backward, returns ["s1"]; and on every output none of whose lines carries
    a string [session_id], extraction returns none. *)
Theorem extractSessionId_scans_backward :
  (let stdout :=
     unlines [quoted "{'a':1}"; quoted "{'session_id':'s1'}"; quoted "{'b':2}"] in
   outputLines stdout
     = [quoted "{'a':1}"; quoted "{'session_id':'s1'}"; quoted "{'b':2}"]
   /\ lineSessionId JSON_parse (quoted "{'b':2}") = None
   /\ lineSessionId JSON_parse (quoted "{'session_id':'s1'}") = Some (js "s1")
   /\ extractSessionId JSON_parse stdout = Some (js "s1"))
  /\ (forall (parse : jsstring -> option json) (stdout : jsstring),
        (forall line, In line (outputLines stdout) ->
                      lineSessionId parse line = None) ->
        extractSessionId parse stdout = None).
Proof.
  split; [by vm_compute|].
  intros parse stdout Hnone.
  destruct (outputLines stdout) as [|l ls] eqn:Hlines using rev_ind.
  - unfold extractSessionId. by rewrite Hlines.
  - clear IHls.
    rewrite (extractSessionId_lines parse stdout ls l Hlines).
    assert (Hl : lineSessionId parse l = None)
      by (apply Hnone, in_or_app; right; by left).
    unfold lineSessionId in Hl.
    destruct (parse l) as [v|]; [|done].
    destruct (readSessionId v); [done| |done].
    apply scanBack_none. intros l' Hl'. apply Hnone, in_or_app. left.
    by apply in_rev.
Qed.

Lemma extractSessionId_scans_backward_witness :
  extractSessionId JSON_parse (unlines [quoted "{'a':1}"; quoted "{'b':2}"]) = None.
Proof.
  apply (proj2 extractSessionId_scans_backward).
  intros line Hin. vm_compute in Hin.
  destruct Hin as [<-|[<-|[]]]; by vm_compute.
Defined.

(** C4, as the code has it. When the last non-empty line is malformed JSON,
    extraction returns none, whatever the earlier lines hold. The backward
    scan runs when the last line parses to a value other than [null] that has
    no string [session_id]: it passes over malformed lines and returns the
    token of the latest earlier line that carries one. *)
Theorem extractSessionId_fallback
    (parse : jsstring -> option json) (stdout : jsstring)
    (earlier : list jsstring) (lastLine : jsstring) :
  outputLines stdout = earlier ++ [lastLine] ->
  (parse lastLine = None -> extractSessionId parse stdout = None)
  /\ (forall v, parse lastLine = Some v -> readSessionId v = SidAbsent ->
        extractSessionId parse stdout = scanBack parse (rev earlier)
        /\ forall before line after s,
             earlier = before ++ line :: after ->
             lineSessionId parse line = Some s ->
             (forall l, In l after -> lineSessionId parse l = None) ->
             extractSessionId parse stdout = Some s).
Proof.
  intros Hlines.
  rewrite (extractSessionId_lines parse stdout earlier lastLine Hlines).
  split.
  - by intros ->.
  - intros v -> ->. split; [done|].
    intros before line after s -> Hline Hafter.
    by apply scanBack_latest.
Qed.

Lemma extractSessionId_fallback_witness :
  extractSessionId JSON_parse
    (unlines [quoted "{'session_id':'s1'}"; quoted "{bad"; quoted "{'b':2}"])
  = Some (js "s1").
Proof.
  refine (proj2 (proj2 (extractSessionId_fallback JSON_parse
            (unlines [quoted "{'session_id':'s1'}"; quoted "{bad"; quoted "{'b':2}"])
            [quoted "{'session_id':'s1'}"; quoted "{bad"] (quoted "{'b':2}") _)
            (JObject [(js "b", JNumber (js "2"))]) _ _)
          [] (quoted "{'session_id':'s1'}") [quoted "{bad"] (js "s1") _ _ _).
  - by vm_compute.
  - by vm_compute.
  - by vm_compute.
  - by vm_compute.
  - by vm_compute.
  - intros l Hl. vm_compute in Hl. destruct Hl as [<-|[]]. by vm_compute.
Defined.

(** C4, as stated, fails: the last non-empty line [{bad] is malformed, the
    line before it is valid JSON with the string session id ["s1"], and
    extraction returns none. *)
Lemma extractSessionId_malformed_last_line :
  let stdout := unlines [quoted "{'session_id':'s1'}"; quoted "{bad"] in
  outputLines stdout = [quoted "{'session_id':'s1'}"; quoted "{bad"]
  /\ JSON_parse (quoted "{bad") = None
  /\ lineSessionId JSON_parse (quoted "{'session_id':'s1'}") = Some (js "s1")
  /\ extractSessionId JSON_parse stdout = None.
Proof. by vm_compute. Qed.

End ClaudeProofs.

(** ** Decision points *)

Module DecisionPointsProofs.
Import Js DecisionPoints.

(** C7. On the output of the specification, extraction yields exactly two
    records, and their fields are those obtained by splitting each marked
    line on the bar and trimming the pieces. *)
Theorem extractDecisionPoints_example :
  let output :=
    unlines [js "[DECISION_POINT] use X | X | Y"; js "noise";
             js "[DECISION_POINT] cache it | yes | no"] in
  extractDecisionPoints output
    = [ {| description := js "use X"; chosen := js "X"; rejected := js "Y" |};
        {| description := js "cache it"; chosen := js "yes"; rejected := js "no" |} ]
  /\ extractDecisionPoints output = decisionPointsBySplitting output.
Proof. by vm_compute. Qed.

End DecisionPointsProofs.

(** ** The worker pool *)

Module WorkerPoolProofs.
Import Js Types WorkerPool.

(** The registry's invariant: each entry is filed under its own id, and no
    entry is pending. *)
Definition wellKeyed (p : WorkerPool) : Prop :=
  forall k t, tasks p !! k = Some t -> id t = k.

Definition neverPending (p : WorkerPool) : Prop :=
  forall k t, tasks p !! k = Some t -> status t <> Pending.

Lemma submit_cases {H : Type} taskId ty n (h : H) pr p :
  (submit taskId ty n h pr p = (p, None)
   /\ (canAccept p = false \/ has taskId p = true))
  \/ (canAccept p = true /\ has taskId p = false
      /\ submit taskId ty n h pr p =
           ({| tasks := <[taskId :=
                   {| id := taskId; type := ty; issueNumber := n;
                      taskPrNumber := pr; status := InProgress;
                      aborted := false |}]> (tasks p);
               maxConcurrency := maxConcurrency p |}, Some h)).
Proof.
  unfold submit.
  destruct (canAccept p); simpl; [|left; auto].
  destruct (has taskId p); [left; auto|right; auto].
Qed.

Lemma submit_wellKeyed {H : Type} taskId ty n (h : H) pr p :
  wellKeyed p -> wellKeyed (submit taskId ty n h pr p).1.
Proof.
  intros Hp.
  destruct (submit_cases taskId ty n h pr p) as [[-> _]|(_ & _ & ->)]; [done|].
  intros k t. simpl. rewrite lookup_insert.
  case_decide as Hk; [intros [= <-]; by subst|apply Hp].
Qed.

Lemma submit_neverPending {H : Type} taskId ty n (h : H) pr p :
  neverPending p -> neverPending (submit taskId ty n h pr p).1.
Proof.
  intros Hp.
  destruct (submit_cases taskId ty n h pr p) as [[-> _]|(_ & _ & ->)]; [done|].
  intros k t. simpl. rewrite lookup_insert.
  case_decide as Hk; [by intros [= <-]|apply Hp].
Qed.

Lemma updateStatus_wellKeyed taskId st p :
  wellKeyed p -> wellKeyed (updateStatus taskId st p).
Proof.
  intros Hp. unfold updateStatus.
  destruct (tasks p !! taskId) as [task|] eqn:Htask; [|done].
  intros k t. simpl. rewrite lookup_insert.
  case_decide as Hk; [|apply Hp].
  intros [= <-]. subst k. simpl. by apply Hp.
Qed.

Lemma updateStatus_neverPending taskId st p :
  st <> Pending -> neverPending p -> neverPending (updateStatus taskId st p).
Proof.
  intros Hst Hp. unfold updateStatus.
  destruct (tasks p !! taskId) as [task|] eqn:Htask; [|done].
  intros k t. simpl. rewrite lookup_insert.
  case_decide as Hk; [|apply Hp].
  by intros [= <-].
Qed.

Lemma cancelTask_id t : id (cancelTask t) = id t.
Proof. unfold cancelTask. by destruct (isInProgress t). Qed.

Lemma cancelTask_status t :
  status (cancelTask t) = if isInProgress t then Failed else status t.
Proof. unfold cancelTask. by destruct (isInProgress t). Qed.

Lemma cancelAll_wellKeyed p : wellKeyed p -> wellKeyed (cancelAll p).
Proof.
  intros Hp k t. simpl. rewrite lookup_fmap.
  destruct (tasks p !! k) as [t0|] eqn:Ht0; [|done].
  intros [= <-]. rewrite cancelTask_id. by apply Hp.
Qed.

Lemma cancelAll_neverPending p : neverPending p -> neverPending (cancelAll p).
Proof.
  intros Hp k t. simpl. rewrite lookup_fmap.
  destruct (tasks p !! k) as [t0|] eqn:Ht0; [|done].
  intros [= <-]. rewrite cancelTask_status.
  destruct (isInProgress t0); [done|by eapply Hp].
Qed.

Lemma step_invariant {H : Type} (o : op H) s :
  wellKeyed (pool s) /\ neverPending (pool s) ->
  wellKeyed (pool (step o s)) /\ neverPending (pool (step o s)).
Proof.
  intros [Hk Hn]. destruct o as [taskId ty n h pr|taskId ok|]; simpl.
  - pose proof (submit_wellKeyed taskId ty n h pr _ Hk) as Hk'.
    pose proof (submit_neverPending taskId ty n h pr _ Hn) as Hn'.
    destruct (submit taskId ty n h pr (pool s)) as [p [h'|]]; by simpl in *.
  - destruct (takeHandler taskId (inFlight s)); [|done]. simpl. split.
    + by apply updateStatus_wellKeyed.
    + apply updateStatus_neverPending; [by destruct ok|done].
  - split; [by apply cancelAll_wellKeyed|by apply cancelAll_neverPending].
Qed.

Lemma reachable_invariant {H : Type} m (s : running H) :
  reachable m s -> wellKeyed (pool s) /\ neverPending (pool s).
Proof.
  induction 1 as [|o s _ IH].
  - split; intros k t; simpl; by rewrite lookup_empty.
  - by apply step_invariant.
Qed.

(** In a list without repetition, a test that at most one element can pass
    keeps at most one element. *)
Lemma filter_at_most_one {A : Type} (f : A -> bool) (l : list A) :
  NoDup l ->
  (forall x y, x ∈ l -> y ∈ l -> f x = true -> f y = true -> x = y) ->
  length (List.filter f l) <= 1.
Proof.
  induction 1 as [|x l Hx Hl IH]; intros Hone; simpl; [lia|].
  destruct (f x) eqn:Hfx.
  - assert (Hnone : List.filter f l = []).
    { clear IH. induction l as [|y l IHl]; [done|]. simpl.
      destruct (f y) eqn:Hfy.
      - exfalso. apply Hx. rewrite (Hone x y); [left|left|right; left|done|done].
      - apply IHl.
        + intros Hin. apply Hx. by right.
        + by inversion Hl.
        + intros a b Ha Hb. apply Hone.
          * inversion Ha; subst; [left|right; by right].
          * inversion Hb; subst; [left|right; by right]. }
    rewrite Hnone. simpl. lia.
  - apply IH. intros a b Ha Hb. apply Hone; by right.
Qed.

Lemma values_NoDup p : wellKeyed p -> NoDup (values p).
Proof.
  intros Hp. unfold values.
  apply NoDup_fmap_2_strong; [|apply NoDup_map_to_list].
  intros [k1 t1] [k2 t2] H1 H2. simpl. intros ->.
  apply elem_of_map_to_list in H1, H2.
  by rewrite <- (Hp _ _ H1), <- (Hp _ _ H2).
Qed.

Lemma elem_of_values p t :
  t ∈ values p -> exists k, tasks p !! k = Some t.
Proof.
  unfold values. intros Hin.
  apply list_elem_of_fmap in Hin as [[k t'] [-> Hin]].
  exists k. by apply elem_of_map_to_list.
Qed.

Lemma activeWithKey_at_most_one p k :
  wellKeyed p -> length (activeWithKey k p) <= 1.
Proof.
  intros Hp. unfold activeWithKey.
  apply filter_at_most_one; [by apply values_NoDup|].
  intros t1 t2 Hin1 Hin2 Hf1 Hf2.
  apply elem_of_values in Hin1 as [k1 Hk1].
  apply elem_of_values in Hin2 as [k2 Hk2].
  apply andb_true_iff in Hf1 as [Hid1 _].
  apply andb_true_iff in Hf2 as [Hid2 _].
  apply bool_decide_eq_true in Hid1, Hid2.
  rewrite <- (Hp _ _ Hk1) in Hk1. rewrite <- (Hp _ _ Hk2) in Hk2.
  rewrite Hid1 in Hk1. rewrite Hid2 in Hk2. congruence.
Qed.

(** C3. In every state the pool reaches through submissions, settlements of
    handlers and cancellations, at most one task of the registry carries a
    given key and is pending or in progress; and a submission under a key
    that the pool has is a no-op: the pool is unchanged and the handler is
    not invoked. *)
Theorem at_most_one_active_task_per_key
    {H : Type} (m : number_) (s : running H) (k : jsstring) :
  reachable m s ->
  length (activeWithKey k (pool s)) <= 1
  /\ (has k (pool s) = true ->
      forall ty n (h : H) pr,
        submit k ty n h pr (pool s) = (pool s, None)
        /\ step (Submit k ty n h pr) s = s).
Proof.
  intros Hreach. split.
  - apply activeWithKey_at_most_one. by apply (reachable_invariant m).
  - intros Hhas ty n h pr.
    assert (Hsub : submit k ty n h pr (pool s) = (pool s, None)).
    { unfold submit. destruct (canAccept (pool s)); simpl; [|done].
      by rewrite Hhas. }
    split; [done|]. simpl. rewrite Hsub. by destruct s.
Qed.

Lemma at_most_one_active_task_per_key_witness :
  let s := step (Submit (js "issue-42") Issue 42 tt None) (start unit (Num 3)) in
  length (activeWithKey (js "issue-42") (pool s)) <= 1
  /\ forall ty n h pr,
       submit (js "issue-42") ty n h pr (pool s) = (pool s, None)
       /\ step (Submit (js "issue-42") ty n h pr) s = s.
Proof.
  intros s.
  pose proof (at_most_one_active_task_per_key (Num 3) s (js "issue-42")
                (reachable_step (Num 3) _ _ (reachable_start (Num 3)))) as [H1 H2].
  split; [exact H1|]. apply H2. by vm_compute.
Defined.

(** C9. When the pool cannot accept (the number of tasks in progress is not
    below the limit), a submission is a no-op: the pool is returned as it
    was, so the registry has the same size and every entry the same status,
    and the handler is not invoked (nothing joins the handlers in flight). *)
Theorem submit_when_full_is_noop
    {H : Type} (s : running H) (k : jsstring) (ty : TaskType) (n : Z) (h : H)
    (pr : option Z) :
  canAccept (pool s) = false ->
  submit k ty n h pr (pool s) = (pool s, None)
  /\ size (tasks (submit k ty n h pr (pool s)).1) = size (tasks (pool s))
  /\ (forall k', status <$> tasks (submit k ty n h pr (pool s)).1 !! k'
                 = status <$> tasks (pool s) !! k')
  /\ inFlight (step (Submit k ty n h pr) s) = inFlight s
  /\ step (Submit k ty n h pr) s = s.
Proof.
  intros Hfull.
  assert (Hsub : submit k ty n h pr (pool s) = (pool s, None)).
  { unfold submit. by rewrite Hfull. }
  rewrite Hsub. simpl. rewrite Hsub. by destruct s.
Qed.

(** [canAccept] is the comparison of the source. *)
Lemma canAccept_spec p :
  canAccept p = true <->
  exists m, maxConcurrency p = Num m /\ (Z.of_nat (activeCount p) < m)%Z.
Proof.
  unfold canAccept. destruct (maxConcurrency p) as [m|].
  - rewrite Z.ltb_lt. split; [eauto|]. by intros (m' & [= <-] & Hlt).
  - split; [done|]. by intros (m' & [=] & _).
Qed.

Lemma submit_when_full_is_noop_witness :
  let s := step (Submit (js "issue-1") Issue 1 tt None) (start unit (Num 1)) in
  activeCount (pool s) = 1
  /\ submit (js "issue-2") Issue 2 tt None (pool s) = (pool s, None)
  /\ step (Submit (js "issue-2") Issue 2 tt None) s = s.
Proof.
  intros s. split; [by vm_compute|].
  pose proof (submit_when_full_is_noop s (js "issue-2") Issue 2 tt None) as Hnoop.
  destruct Hnoop as (H1 & _ & _ & _ & H5); [by vm_compute|].
  by split.
Defined.

Lemma has_iff p k :
  has k p = true <->
  exists t, tasks p !! k = Some t
            /\ (status t = InProgress \/ status t = Pending).
Proof.
  unfold has. destruct (tasks p !! k) as [t|]; [|split; [done|by intros (? & [=] & _)]].
  rewrite orb_true_iff, !bool_decide_eq_true.
  split; [eauto|]. by intros (t' & [= <-] & Hst).
Qed.

(** C10. No operation of the pool gives a task the status pending: in every
    reachable state no entry of the registry is pending, [has] holds of a
    key exactly when the registry has a task in progress under it, and a
    submission that registers a task registers it in progress. *)
Theorem no_task_is_ever_pending {H : Type} (m : number_) (s : running H) :
  reachable m s ->
  (forall k t, tasks (pool s) !! k = Some t -> status t <> Pending)
  /\ (forall k, has k (pool s) = true <->
                exists t, tasks (pool s) !! k = Some t /\ status t = InProgress)
  /\ (forall k ty n (h : H) pr p' h',
        submit k ty n h pr (pool s) = (p', Some h') ->
        exists t, tasks p' !! k = Some t /\ status t = InProgress).
Proof.
  intros Hreach.
  destruct (reachable_invariant m s Hreach) as [_ Hnp].
  split; [exact Hnp|]. split.
  - intros k. rewrite has_iff. split.
    + intros (t & Ht & [Hst|Hst]); [eauto|]. by destruct (Hnp k t Ht).
    + intros (t & Ht & Hst). eauto.
  - intros k ty n h pr p' h' Hsub.
    destruct (submit_cases k ty n h pr (pool s)) as [[Heq _]|(_ & _ & Heq)];
      rewrite Heq in Hsub; [done|].
    injection Hsub as <- <-. simpl. rewrite lookup_insert_eq. eauto.
Qed.

Lemma no_task_is_ever_pending_witness :
  let s := step CancelAll
             (step (Submit (js "issue-2") Issue 2 tt None)
                (step (Settle (js "issue-1") false)
                   (step (Submit (js "issue-1") Issue 1 tt None)
                      (start unit (Num 3))))) in
  (forall k t, tasks (pool s) !! k = Some t -> status t <> Pending)
  /\ (forall k, has k (pool s) = true <->
                exists t, tasks (pool s) !! k = Some t /\ status t = InProgress).
Proof.
  intros s.
  pose proof (no_task_is_ever_pending (Num 3) s) as Hnp.
  destruct Hnp as (H1 & H2 & _); [|by split].
  repeat apply reachable_step. apply reachable_start.
Defined.

End WorkerPoolProofs.

(** ** Runs: the steps every proof about a handler takes *)

Module RunProofs.
Import Js Types Claude Run.

Lemma perform_eq (w : World) {A : Type} (c : call A) s :
  perform w c s
  = (withHistory (history s ++ [Called c (answer w A (history s) c)]) s,
     answer w A (history s) c).
Proof. reflexivity. Qed.

(** A run of [runClaude] that resolves has recorded one event: the agent's
    process and its exit. *)
Lemma runClaude_resolved (w : World) options s s' result :
  runClaude w options s = (s', inr result) ->
  exists p,
    answer w processExit (history s) (Spawn options) = inr p
    /\ s' = withHistory (history s ++ [Called (Spawn options) (inr p)]) s
    /\ result = {| exitCode := default 1%Z (code p); stdout := out p;
                   stderr := err p;
                   sessionId := extractSessionId JSON_parse (out p) |}.
Proof.
  unfold runClaude, bind. rewrite perform_eq.
  destruct (answer w processExit (history s) (Spawn options)) as [e|p] eqn:Hp;
    [done|].
  unfold ret. intros [= <- <-]. eauto.
Qed.

Lemma count_app (f : event -> bool) l1 l2 :
  TaskHandler.count f (l1 ++ l2) = TaskHandler.count f l1 + TaskHandler.count f l2.
Proof. unfold TaskHandler.count. by rewrite List.filter_app, length_app. Qed.

Lemma count_none (f g : event -> bool) l :
  (forall e, g e = true -> f e = false) ->
  forallb g l = true -> TaskHandler.count f l = 0.
Proof.
  intros Hfg. unfold TaskHandler.count.
  induction l as [|e l IH]; [done|]. simpl.
  intros [He Hl]%andb_true_iff. rewrite (Hfg e He). by apply IH.
Qed.

(** Unfolds the combinators of a run and the state updates under them. *)
Ltac run_simpl :=
  cbv beta iota zeta delta
      [bind tryCatch tryFinally swallow ret throw get modify perform readClock
       withHistory withPool withLastPollTime withSessionStore] in *;
  cbn [fst snd history workerPool lastPollTime sessionStore] in *.

(** Takes the next call of a run, in both of its outcomes. *)
Ltac run_call :=
  match goal with
  | |- context [answer ?w ?A ?h ?c] =>
      let r := fresh "r" in
      let Hr := fresh "Hr" in
      destruct (answer w A h c) as [r|r] eqn:Hr; run_simpl
  end.

End RunProofs.

(** ** The Implement task *)

Module TaskHandlerProofs.
Import Js Types Claude Run TaskHandler RunProofs.

(** The events that the steps before the agent can record: none of them is a
    publish, a change-request creation, a failure label, an error comment, a
    workspace discard or the removal of the in-progress label. *)
Definition quiet (n : Z) (e : event) : bool :=
  negb (isPush e || isCreatePullRequest e || isAddLabel n LABELS_failed e
        || isErrorComment n e || isDiscard e
        || isRemoveLabel n LABELS_inProgress e).

Section Handler.
Variable w : World.
Variable config : Config.
Variable repoRoot : jsstring.

Lemma beforeAgent_quiet issue s s1 r :
  beforeAgent w repoRoot issue s = (s1, r) ->
  exists tr, history s1 = history s ++ tr
             /\ forallb (quiet (number issue)) tr = true.
Proof.
  unfold beforeAgent, createWorktree, buildPrompt. run_simpl.
  repeat run_call;
    intros [= <- <-]; run_simpl; rewrite <- ?app_assoc; cbn [app];
    eexists; (split; [reflexivity|by vm_compute]).
Qed.

(** The run of [handle] when the steps before the agent succeed and the
    agent exits with a code other than zero. *)
Lemma handle_agent_failed issue s s1 p s2 result :
  beforeAgent w repoRoot issue s = (s1, inr p) ->
  runClaude w (agentOptions config repoRoot issue p) s1 = (s2, inr result) ->
  exitCode result <> 0%Z ->
  exists r1 r2 r3 r4,
    handle w config repoRoot issue s
    = (withHistory
         (history s2 ++
          [Called (RemoveLabel (number issue) LABELS_inProgress) r1;
           Called (AddLabel (number issue) LABELS_failed) r2;
           Called (PostComment (number issue)
                     (ImplementFailed (ClaudeExit (exitCode result)))) r3;
           Called (ExecFile GIT
                     [js "worktree"; js "remove"; worktreeOf repoRoot issue;
                      js "--force"] repoRoot) r4])
         s2,
       inr tt).
Proof.
  intros Hbefore Hagent Hcode.
  unfold handle, tryFinally, tryCatch.
  unfold bind at 1. rewrite Hbefore.
  unfold bind at 1. rewrite Hagent.
  unfold afterAgent. rewrite (proj2 (Z.eqb_neq _ _) Hcode).
  unfold reportFailure, removeWorktree. run_simpl.
  rewrite <- !app_assoc. cbn [app].
  do 4 eexists. reflexivity.
Qed.

End Handler.

Lemma quiet_counts n tr :
  forallb (quiet n) tr = true ->
  count isPush tr = 0 /\ count isCreatePullRequest tr = 0
  /\ count (isAddLabel n LABELS_failed) tr = 0
  /\ count (isErrorComment n) tr = 0 /\ count isDiscard tr = 0
  /\ count (isRemoveLabel n LABELS_inProgress) tr = 0.
Proof.
  intros Hq.
  repeat split; apply (count_none _ (quiet n)); try done;
    intros e; unfold quiet; rewrite negb_true_iff, !orb_false_iff; tauto.
Qed.

(** C5. When the steps before the agent succeed and the agent returns exit
    code 1, the run resolves; it made no publish and created no change
    request; it added the failure label once, posted one error comment,
    discarded the workspace once and removed the in-progress label once; and
    these four calls follow the agent in that order whatever each of them
    answered, so that a failing one does not suppress the next. *)
Theorem implement_agent_exit_1
    (w : World) (config : Config) (repoRoot : jsstring) (issue : TrackedIssue)
    (s s1 s2 : process) (p : prompt) (result : ClaudeResult) :
  beforeAgent w repoRoot issue s = (s1, inr p) ->
  runClaude w (agentOptions config repoRoot issue p) s1 = (s2, inr result) ->
  exitCode result = 1%Z ->
  let s' := (handle w config repoRoot issue s).1 in
  let run := eventsSince s s' in
  let n := number issue in
  (handle w config repoRoot issue s).2 = inr tt
  /\ count isPush run = 0
  /\ count isCreatePullRequest run = 0
  /\ count (isAddLabel n LABELS_failed) run = 1
  /\ count (isErrorComment n) run = 1
  /\ count isDiscard run = 1
  /\ count (isRemoveLabel n LABELS_inProgress) run = 1
  /\ exists r1 r2 r3 r4,
       history s'
       = history s2 ++
         [Called (RemoveLabel n LABELS_inProgress) r1;
          Called (AddLabel n LABELS_failed) r2;
          Called (PostComment n (ImplementFailed (ClaudeExit 1))) r3;
          Called (ExecFile GIT
                    [js "worktree"; js "remove"; worktreeOf repoRoot issue;
                     js "--force"] repoRoot) r4].
Proof.
  intros Hbefore Hagent Hcode s' run n.
  destruct (handle_agent_failed w config repoRoot issue s s1 p s2 result
              Hbefore Hagent) as (r1 & r2 & r3 & r4 & Hrun);
    [by rewrite Hcode|].
  destruct (beforeAgent_quiet w repoRoot issue s s1 _ Hbefore)
    as (tr & Hs1 & Hquiet).
  destruct (runClaude_resolved w _ s1 s2 result Hagent) as (pe & _ & Hs2 & _).
  assert (Hhist : history s2 = history s ++ tr ++ [Called
            (Spawn (agentOptions config repoRoot issue p)) (inr pe)]).
  { rewrite Hs2. cbn [history withHistory]. by rewrite Hs1, <- app_assoc. }
  subst s' run. rewrite Hrun, Hcode. cbn [fst snd]. split; [done|].
  unfold eventsSince. cbn [history withHistory].
  rewrite Hhist, <- !app_assoc, drop_app_length.
  destruct (quiet_counts n tr Hquiet) as (Q1 & Q2 & Q3 & Q4 & Q5 & Q6).
  rewrite !count_app, Q1, Q2, Q3, Q4, Q5, Q6.
  unfold count. cbn [app List.filter isPush isDiscard isGit isCreatePullRequest
                     isAddLabel isErrorComment isRemoveLabel].
  subst n. rewrite !(bool_decide_eq_true_2 (number issue = number issue)) by done.
  repeat split; try by vm_compute.
  exists r1, r2, r3, r4. by rewrite <- !app_assoc.
Qed.

Lemma implement_agent_exit_1_witness :
  let s' := (handle (Scenarios.agentExits 1) Scenarios.noTools Scenarios.root
               Scenarios.issue42 Scenarios.fresh).1 in
  let run := eventsSince Scenarios.fresh s' in
  count isPush run = 0
  /\ count isCreatePullRequest run = 0
  /\ count (isAddLabel 42 LABELS_failed) run = 1
  /\ count (isErrorComment 42) run = 1
  /\ count isDiscard run = 1
  /\ count (isRemoveLabel 42 LABELS_inProgress) run = 1.
Proof.
  intros s' run.
  pose proof (implement_agent_exit_1 (Scenarios.agentExits 1) Scenarios.noTools
                Scenarios.root Scenarios.issue42 Scenarios.fresh
                (beforeAgent (Scenarios.agentExits 1) Scenarios.root
                   Scenarios.issue42 Scenarios.fresh).1
                (runClaude (Scenarios.agentExits 1)
                   (agentOptions Scenarios.noTools Scenarios.root Scenarios.issue42
                      (IssuePrompt Scenarios.issue42 (js "- [ ] todo")))
                   (beforeAgent (Scenarios.agentExits 1) Scenarios.root
                      Scenarios.issue42 Scenarios.fresh).1).1
                (IssuePrompt Scenarios.issue42 (js "- [ ] todo"))
                {| exitCode := 1; stdout := quoted "{'session_id':'s2'}";
                   stderr := []; sessionId := Some (js "s2") |}) as Hrun.
  destruct Hrun as (_ & H1 & H2 & H3 & H4 & H5 & H6 & _);
    [by vm_compute|by vm_compute|reflexivity|].
  by repeat split.
Defined.

End TaskHandlerProofs.

(** ** The Review task *)

Module ReviewHandlerProofs.
Import Js Types Claude Run ReviewHandler RunProofs.

Definition notSpawn (e : event) : bool := negb (isSpawn e).

(** A stretch of a run that does not invoke the agent and leaves the store
    alone. *)
Definition quiet (s s' : process) : Prop :=
  exists tr, history s' = history s ++ tr
             /\ forallb notSpawn tr = true
             /\ sessionStore s' = sessionStore s.

(** A stretch of a run whose store is the one [storeAfter] gives, from the
    result of its agent invocation. *)
Definition tracked (prNumber : Z) (s s' : process) : Prop :=
  exists tr, history s' = history s ++ tr
             /\ sessionStore s'
                = storeAfter prNumber (agentResult tr) (sessionStore s).

Lemma agentResult_notSpawn e rest :
  notSpawn e = true -> agentResult (e :: rest) = agentResult rest.
Proof.
  destruct e as [A c reply|A q v]; [|done].
  revert reply. by destruct c.
Qed.

Lemma agentResult_isSpawn e rest :
  isSpawn e = true -> agentResult (e :: rest) = agentResult [e].
Proof.
  destruct e as [A c reply|A q v]; [|done].
  revert reply. by destruct c.
Qed.

Lemma agentResult_quiet_l tr1 tr2 :
  forallb notSpawn tr1 = true -> agentResult (tr1 ++ tr2) = agentResult tr2.
Proof.
  induction tr1 as [|e tr1 IH]; [done|].
  cbn [forallb app]. intros [He Htr1]%andb_true_iff.
  rewrite agentResult_notSpawn by done. by apply IH.
Qed.

Lemma agentResult_quiet_r tr1 tr2 :
  forallb notSpawn tr2 = true -> agentResult (tr1 ++ tr2) = agentResult tr1.
Proof.
  intros Htr2. induction tr1 as [|e tr1 IH].
  - cbn [app]. rewrite <- (app_nil_r tr2). by rewrite agentResult_quiet_l.
  - cbn [app]. destruct (isSpawn e) eqn:He.
    + by rewrite agentResult_isSpawn, (agentResult_isSpawn e tr1).
    + rewrite !agentResult_notSpawn by (unfold notSpawn; by rewrite He).
      apply IH.
Qed.

Lemma quiet_refl s : quiet s s.
Proof. exists []. by rewrite app_nil_r. Qed.

Lemma quiet_trans s1 s2 s3 : quiet s1 s2 -> quiet s2 s3 -> quiet s1 s3.
Proof.
  intros (tr1 & H1 & Q1 & S1) (tr2 & H2 & Q2 & S2).
  exists (tr1 ++ tr2). rewrite H2, H1, app_assoc, forallb_app, Q1, Q2.
  split; [done|]. split; [done|congruence].
Qed.

Lemma quiet_tracked prNumber s s' : quiet s s' -> tracked prNumber s s'.
Proof.
  intros (tr & H & Q & S). exists tr. split; [done|].
  rewrite <- (app_nil_r tr), agentResult_quiet_l by done. by rewrite S.
Qed.

Lemma quiet_then_tracked prNumber s1 s2 s3 :
  quiet s1 s2 -> tracked prNumber s2 s3 -> tracked prNumber s1 s3.
Proof.
  intros (tr1 & H1 & Q1 & S1) (tr2 & H2 & S2).
  exists (tr1 ++ tr2). rewrite H2, H1, app_assoc. split; [done|].
  by rewrite agentResult_quiet_l, S2, S1.
Qed.

Lemma tracked_then_quiet prNumber s1 s2 s3 :
  tracked prNumber s1 s2 -> quiet s2 s3 -> tracked prNumber s1 s3.
Proof.
  intros (tr1 & H1 & S1) (tr2 & H2 & Q2 & S2).
  exists (tr1 ++ tr2). rewrite H2, H1, app_assoc. split; [done|].
  by rewrite agentResult_quiet_r, S2, S1.
Qed.

(** The same, of an asynchronous function from every state. *)
Definition quietM {A : Type} (m : M A) : Prop := forall s, quiet s (m s).1.

Definition trackedM (prNumber : Z) {A : Type} (m : M A) : Prop :=
  forall s, tracked prNumber s (m s).1.

Lemma quietM_ret {A : Type} (a : A) : quietM (ret a).
Proof. intros s. apply quiet_refl. Qed.

Lemma quietM_throw {A : Type} e : quietM (@throw A e).
Proof. intros s. apply quiet_refl. Qed.

Lemma quietM_get {A : Type} (f : process -> A) : quietM (get f).
Proof. intros s. apply quiet_refl. Qed.

Lemma quietM_perform (w : World) {A : Type} (c : call A) :
  (forall reply, isSpawn (Called c reply) = false) -> quietM (perform w c).
Proof.
  intros Hc s. rewrite perform_eq. eexists. cbn [fst history withHistory].
  split; [reflexivity|]. split; [|by destruct s].
  cbn [forallb]. unfold notSpawn. by rewrite Hc.
Qed.

Lemma quietM_bind {A B : Type} (m : M A) (k : A -> M B) :
  quietM m -> (forall a, quietM (k a)) -> quietM (bind m k).
Proof.
  intros Hm Hk s. unfold bind. specialize (Hm s).
  destruct (m s) as [s1 [e|a]]; [done|].
  eapply quiet_trans; [exact Hm|apply Hk].
Qed.

Lemma quietM_swallow (m : M unit) : quietM m -> quietM (swallow m).
Proof. intros Hm s. unfold swallow. specialize (Hm s). by destruct (m s). Qed.

Lemma trackedM_quietM prNumber {A : Type} (m : M A) :
  quietM m -> trackedM prNumber m.
Proof. intros Hm s. apply quiet_tracked, Hm. Qed.

Lemma trackedM_bind_l prNumber {A B : Type} (m : M A) (k : A -> M B) :
  quietM m -> (forall a, trackedM prNumber (k a)) -> trackedM prNumber (bind m k).
Proof.
  intros Hm Hk s. unfold bind. specialize (Hm s).
  destruct (m s) as [s1 [e|a]]; [by apply quiet_tracked|].
  eapply quiet_then_tracked; [exact Hm|apply Hk].
Qed.

Lemma trackedM_tryCatch prNumber {A : Type} (body : M A) (h : error -> M A) :
  trackedM prNumber body -> (forall e, quietM (h e)) ->
  trackedM prNumber (tryCatch body h).
Proof.
  intros Hb Hh s. unfold tryCatch. specialize (Hb s).
  destruct (body s) as [s1 [e|a]]; [|done].
  eapply tracked_then_quiet; [exact Hb|apply Hh].
Qed.

Lemma trackedM_tryFinally prNumber {A : Type} (body : M A) (cleanup : M unit) :
  trackedM prNumber body -> quietM cleanup ->
  trackedM prNumber (tryFinally body cleanup).
Proof.
  intros Hb Hc s. unfold tryFinally. specialize (Hb s).
  destruct (body s) as [s1 r]. specialize (Hc s1).
  assert ((let (s'', y) := cleanup s1 in
           match y with inl e => (s'', inl e) | inr _ => (s'', r) end).1
          = (cleanup s1).1) as -> by (by destruct (cleanup s1) as [? [?|?]]).
  eapply tracked_then_quiet; [exact Hb|exact Hc].
Qed.

Section Handler.
Variable w : World.
Variable config : Config.
Variable repoRoot : jsstring.

Lemma createWorktree_quiet path branch :
  quietM (createWorktree w repoRoot path branch).
Proof.
  unfold createWorktree.
  repeat (apply quietM_bind; [|intros _]); by apply quietM_perform.
Qed.

Lemma removeWorktree_quiet path : quietM (removeWorktree w repoRoot path).
Proof. by apply quietM_perform. Qed.

(** From the agent invocation on: the store follows the agent's result. *)
Lemma agent_tracked prNumber options (rest : ClaudeResult -> M unit) :
  (forall result, quietM (rest result)) ->
  trackedM prNumber
    (bind (runClaude w options)
       (fun result => bind (saveSession prNumber result) (fun _ => rest result))).
Proof.
  intros Hrest s. unfold runClaude. run_simpl.
  destruct (answer w processExit (history s) (Spawn options)) as [e|p] eqn:Hp.
  - eexists. cbn [fst history sessionStore]. split; [reflexivity|]. done.
  - set (result := {| exitCode := default 1%Z (code p); stdout := out p;
                      stderr := err p;
                      sessionId := extractSessionId JSON_parse (out p) |}).
    set (s1 := {| history := history s ++ [Called (Spawn options) (inr p)];
                  workerPool := workerPool s; lastPollTime := lastPollTime s;
                  sessionStore := sessionStore s |}).
    assert (Hsave : tracked prNumber s (saveSession prNumber result s1).1
                    /\ exists s2, saveSession prNumber result s1 = (s2, inr tt)).
    { unfold saveSession.
      destruct (sessionId result) as [sid|] eqn:Hsid;
        [destruct (truthy sid) eqn:Htruthy|];
        (split; [|by eexists]);
        exists [Called (Spawn options) (inr p)];
        (split; [done|]);
        unfold storeAfter; cbn [agentResult]; fold result;
        by rewrite Hsid, ?Htruthy. }
    destruct Hsave as [Htracked [s2 Hs2]]. rewrite Hs2 in *.
    eapply tracked_then_quiet; [exact Htracked|apply Hrest].
Qed.

Lemma review_tracked prNumber comments branchName :
  trackedM prNumber (review w config repoRoot prNumber comments branchName).
Proof.
  unfold review.
  apply trackedM_bind_l; [apply createWorktree_quiet|intros _].
  apply trackedM_bind_l; [by apply quietM_perform|intros _].
  apply trackedM_bind_l; [apply quietM_get|intros sid].
  apply agent_tracked. intros result.
  destruct (exitCode result =? 0)%Z; [|apply quietM_throw].
  apply quietM_bind; [|intros _]; by apply quietM_perform.
Qed.

Lemma handle_tracked prNumber comments :
  trackedM prNumber (handle w config repoRoot prNumber comments).
Proof.
  unfold handle.
  apply trackedM_bind_l; [by apply quietM_perform|intros branchName].
  apply trackedM_tryFinally.
  - apply trackedM_tryCatch; [apply review_tracked|].
    intros e. apply quietM_swallow. by apply quietM_perform.
  - apply quietM_swallow, removeWorktree_quiet.
Qed.

End Handler.

(** C2, as the code has it. The store a Review run leaves is the store it
    found, with the token of the change request overwritten exactly when the
    agent invocation resolved with a non-empty session id, whatever its exit
    code; when the agent was not invoked, rejected, or returned no session
    id, the store is unchanged. The token of any other change request is
    never touched. *)
Theorem review_overwrites_token_when_agent_returns_one
    (w : World) (config : Config) (repoRoot : jsstring) (prNumber : Z)
    (comments : list ReviewComment) (s : process) :
  let s' := (handle w config repoRoot prNumber comments s).1 in
  sessionStore s'
  = storeAfter prNumber (agentResult (TaskHandler.eventsSince s s'))
      (sessionStore s)
  /\ forall other, other <> prNumber ->
       sessionStore s' !! other = sessionStore s !! other.
Proof.
  intros s'.
  destruct (handle_tracked w config repoRoot prNumber comments s)
    as (tr & Hhist & Hstore).
  fold s' in Hhist, Hstore.
  unfold TaskHandler.eventsSince. rewrite Hhist, drop_app_length.
  split; [done|].
  intros other Hother. rewrite Hstore. unfold storeAfter.
  destruct (agentResult tr) as [result|]; [|done].
  destruct (sessionId result) as [sid|]; [|done].
  destruct (truthy sid); [|done].
  by rewrite lookup_insert_ne.
Qed.

(** C2, as stated, fails: with the token ["s1"] stored for change request 7,
    a run whose agent exits with code 1 and reports the session id ["s2"]
    leaves ["s2"] in the store. *)
Lemma review_overwrites_token_on_agent_failure :
  let s := Scenarios.withStoredToken in
  let s' := (handle (Scenarios.agentExits 1) Scenarios.noTools Scenarios.root
               7 [] s).1 in
  sessionStore s !! 7%Z = Some (js "s1")
  /\ exitCode <$> agentResult (TaskHandler.eventsSince s s') = Some 1%Z
  /\ sessionStore s' !! 7%Z = Some (js "s2").
Proof. by vm_compute. Qed.

End ReviewHandlerProofs.

(** ** The poller *)

Module PollerProofs.
Import Js Types Run Poller RunProofs.

(** What a stretch of the poller leaves alone: the timestamp, and the
    history but for the events [tr] it adds. *)
Definition adds (tr : list event) (s s' : process) : Prop :=
  history s' = history s ++ tr /\ lastPollTime s' = lastPollTime s.

Section Poller.
Variable w : World.

Lemma submit_adds taskId ty n h pr s :
  exists s', submit taskId ty n h pr s = (s', inr tt) /\ adds [] s s'.
Proof.
  unfold submit, modify. eexists. split; [reflexivity|].
  split; cbn [history lastPollTime withPool]; [by rewrite app_nil_r|done].
Qed.

(** The loop over the items makes no call and cannot throw. *)
Lemma forEachIssue_adds issues s :
  exists s', forEachIssue issues s = (s', inr tt) /\ adds [] s s'.
Proof.
  revert s. induction issues as [|issue rest IH]; intros s.
  - exists s. split; [done|]. split; [by rewrite app_nil_r|done].
  - cbn [forEachIssue]. unfold bind at 1, get at 1.
    destruct (WorkerPool.has _ _); [apply IH|].
    unfold bind at 1, get at 1.
    destruct (WorkerPool.canAccept _); cbn [negb].
    + unfold bind at 1.
      destruct (submit_adds (js "issue-" ++ dec (number issue)) Issue
                  (number issue) (ImplementJob issue) None s)
        as (s1 & -> & Hh & Ht).
      destruct (IH s1) as (s' & -> & Hh' & Ht').
      exists s'. split; [done|]. unfold adds. rewrite app_nil_r in *.
      split; congruence.
    + exists s. split; [done|]. split; [by rewrite app_nil_r|done].
Qed.

(** The new-work scan: one call to the tracker, and nothing after it when
    that call fails. *)
Lemma pollIssues_adds s :
  let reply := answer w _ (history s) (FetchLabeledIssues (js "auto-implement")) in
  exists s1,
    adds [Called (FetchLabeledIssues (js "auto-implement")) reply] s s1
    /\ pollIssues w s
       = (s1, match reply with inl e => inl e | inr _ => inr tt end).
Proof.
  intros reply. unfold pollIssues, bind. rewrite perform_eq. fold reply.
  destruct reply as [e|issues].
  - eexists. split; [|reflexivity]. by split.
  - destruct issues as [|issue rest].
    + eexists. split; [|reflexivity]. by split.
    + destruct (forEachIssue_adds (issue :: rest)
                  (withHistory (history s ++
                     [Called (FetchLabeledIssues (js "auto-implement"))
                        (inr (issue :: rest))]) s))
        as (s1 & -> & Hh & Ht).
      exists s1. split; [|done]. split; [|done].
      rewrite Hh. cbn [history withHistory]. by rewrite app_nil_r.
Qed.

(** The loop over the groups reads the clock and makes no call. *)
Lemma forEachGroup_adds groups s :
  exists tr s' r,
    forEachGroup w groups s = (s', r) /\ adds tr s s'
    /\ forallb (fun e => negb (isFetchReviewComments e)) tr = true.
Proof.
  revert s. induction groups as [|[prNumber prComments] rest IH]; intros s.
  - exists [], s, (inr tt). split; [done|].
    split; [|done]. split; [by rewrite app_nil_r|done].
  - cbn [forEachGroup]. unfold bind at 1, readClock at 1.
    set (now := time w Z (history s) DateNow).
    set (s0 := withHistory (history s ++ [Read DateNow now]) s).
    unfold bind at 1, get at 1.
    destruct (WorkerPool.canAccept _); cbn [negb].
    + destruct prComments as [|first others].
      * exists [Read DateNow now], s0, (inl TypeError). split; [done|].
        split; [|done]. by split.
      * unfold bind at 1.
        destruct (submit_adds
                    (js "review-" ++ dec prNumber ++ js "-" ++ dec now) Review
                    (Types.prNumber first)
                    (ReviewJob prNumber (first :: others)) (Some prNumber) s0)
          as (s1 & -> & Hh & Ht).
        destruct (IH s1) as (tr & s' & r & -> & [Hh' Ht'] & Hq).
        exists (Read DateNow now :: tr), s', r. split; [done|].
        split; [|done]. split; [|by rewrite Ht', Ht].
        rewrite Hh', Hh. subst s0. cbn [history withHistory].
        by rewrite app_nil_r, <- app_assoc.
    + exists [Read DateNow now], s0, (inr tt). split; [done|].
      split; [|done]. by split.
Qed.

(** The feedback scan starts with its call to the tracker, made with the
    timestamp the cycle found. *)
Lemma pollReviewComments_adds s :
  let reply := answer w _ (history s) (FetchReviewComments (lastPollTime s)) in
  exists tr s2 r,
    pollReviewComments w s = (s2, r)
    /\ adds (Called (FetchReviewComments (lastPollTime s)) reply :: tr) s s2
    /\ forallb (fun e => negb (isFetchReviewComments e)) tr = true.
Proof.
  intros reply. unfold pollReviewComments.
  unfold bind at 1, get at 1. unfold bind. rewrite perform_eq. fold reply.
  destruct reply as [e|comments].
  - exists []. do 2 eexists. split; [reflexivity|]. split; [|done]. by split.
  - destruct comments as [|c rest].
    + exists []. do 2 eexists. split; [reflexivity|]. split; [|done]. by split.
    + destruct (forEachGroup_adds (groupByPR (c :: rest))
                  (withHistory (history s ++
                     [Called (FetchReviewComments (lastPollTime s))
                        (inr (c :: rest))]) s))
        as (tr & s2 & r & -> & [Hh Ht] & Hq).
      exists tr, s2, r. split; [done|]. split; [|done]. split; [|done].
      rewrite Hh. cbn [history withHistory]. by rewrite <- app_assoc.
Qed.

(** One cycle, by the outcome of its scans. *)
Lemma poll_unfold s :
  poll w s
  = match pollIssues w s with
    | (s1, inl _) => (s1, inr tt)
    | (s1, inr _) =>
        match pollReviewComments w s1 with
        | (s2, inl _) => (s2, inr tt)
        | (s2, inr _) =>
            let now := time w _ (history s2) NewDateISO in
            (withLastPollTime now
               (withHistory (history s2 ++ [Read NewDateISO now]) s2),
             inr tt)
        end
    end.
Proof.
  unfold poll, tryCatch, bind.
  destruct (pollIssues w s) as [s1 [e|[]]]; [done|].
  by destruct (pollReviewComments w s1) as [s2 [e|[]]].
Qed.

End Poller.

(** C6. A cycle never rejects. Its timestamp is the time read after the
    feedback scan when both scans completed without throwing, and the
    timestamp the cycle found when either scan threw; the scans themselves
    never change it. *)
Theorem lastPollTime_advances_after_both_scans (w : World) (s : process) :
  (poll w s).2 = inr tt
  /\ match pollIssues w s with
     | (s1, inl _) => lastPollTime (poll w s).1 = lastPollTime s
     | (s1, inr _) =>
         lastPollTime s1 = lastPollTime s
         /\ match pollReviewComments w s1 with
            | (s2, inl _) => lastPollTime (poll w s).1 = lastPollTime s
            | (s2, inr _) =>
                lastPollTime s2 = lastPollTime s
                /\ lastPollTime (poll w s).1
                   = time w _ (history s2) NewDateISO
            end
     end.
Proof.
  rewrite poll_unfold.
  destruct (pollIssues_adds w s) as (s1 & [_ Ht1] & ->).
  destruct (answer w _ (history s) (FetchLabeledIssues (js "auto-implement")))
    as [e|issues]; [by split|].
  destruct (pollReviewComments_adds w s1) as (tr & s2 & r & -> & [_ Ht2] & _).
  destruct r as [e|[]]; cbn; repeat split; congruence.
Qed.

(** C1, as the code has it. Every cycle starts with the new-work scan, so the
    feedback scan cannot keep it from running. The feedback scan runs exactly
    when the new-work scan completes without throwing: when the new-work scan
    throws, the cycle ends there, and the feedback scan is not executed. *)
Theorem feedback_scan_runs_when_new_work_scan_completes
    (w : World) (s : process) :
  (exists reply rest,
     TaskHandler.eventsSince s (poll w s).1
     = Called (FetchLabeledIssues (js "auto-implement")) reply :: rest)
  /\ match pollIssues w s with
     | (s1, inl _) =>
         (poll w s).1 = s1
         /\ TaskHandler.count isFetchReviewComments
              (TaskHandler.eventsSince s (poll w s).1) = 0
     | (s1, inr _) =>
         exists reply rest,
           TaskHandler.eventsSince s1 (poll w s).1
           = Called (FetchReviewComments (lastPollTime s)) reply :: rest
     end.
Proof.
  rewrite poll_unfold.
  destruct (pollIssues_adds w s) as (s1 & [Hh1 Ht1] & ->).
  set (reply1 := answer w _ (history s) (FetchLabeledIssues (js "auto-implement")))
    in *.
  unfold TaskHandler.eventsSince.
  destruct reply1 as [e|issues]; cbn [fst].
  - rewrite Hh1, drop_app_length. split; [by eauto|]. split; [done|].
    by vm_compute.
  - destruct (pollReviewComments_adds w s1) as (tr & s2 & r & -> & [Hh2 Ht2] & _).
    rewrite Ht1 in Hh2.
    destruct r as [e|[]]; cbn [fst history withHistory withLastPollTime].
    + rewrite Hh2, drop_app_length, Hh1, <- app_assoc, drop_app_length.
      split; by eauto.
    + rewrite Hh2, <- !app_assoc, drop_app_length.
      rewrite Hh1, <- !app_assoc, drop_app_length. split; by eauto.
Qed.

(** C1, as stated, fails: when the tracker cannot list the labelled items,
    the new-work scan throws, the cycle records that one call and nothing
    else, and the feedback scan is not executed. *)
Lemma feedback_scan_skipped_when_new_work_scan_throws :
  let s := Scenarios.fresh in
  let s' := (poll Scenarios.trackerListingFails s).1 in
  (pollIssues Scenarios.trackerListingFails s).2 = inl (Thrown (js "rate limited"))
  /\ TaskHandler.eventsSince s s'
     = [Called (FetchLabeledIssues (js "auto-implement"))
          (inl (Thrown (js "rate limited")))]
  /\ TaskHandler.count isFetchReviewComments (TaskHandler.eventsSince s s') = 0
  /\ lastPollTime s' = lastPollTime s.
Proof. by vm_compute. Qed.

End PollerProofs.

(** ** The built-ins and the matcher on small inputs *)

Module Examples.
Import Js Claude Regex DecisionPoints Types Poller.

Example trim_strips_both_ends :
  trim (js "  a b  ") = js "a b" /\ trim (0xFEFF%N :: js "x") = js "x".
Proof. by vm_compute. Qed.

Example split_empty_string : split LF [] = [[]].
Proof. reflexivity. Qed.

Example outputLines_drops_empty_lines :
  outputLines (unlines [js " "; []; js "a"; []; js "b"; js " "])
  = [js "a"; js "b"].
Proof. by vm_compute. Qed.

Example JSON_parse_accepts :
  JSON_parse (quoted " {'k' : [1, -2.5e+3, true, null, 'A'], 'k' : {}} ")
  = Some (JObject
            [(js "k", JArray [JNumber (js "1"); JNumber (js "-2.5e+3");
                              JBool true; JNull; JString (js "A")]);
             (js "k", JObject [])]).
Proof. by vm_compute. Qed.

Example JSON_parse_rejects :
  List.map JSON_parse
    [quoted "{bad"; quoted "01"; quoted "[1,]"; quoted "{'a':1,}";
     quoted "'a' 'b'"; quoted "nul"; quoted "1."; []]
  = [None; None; None; None; None; None; None; None].
Proof. by vm_compute. Qed.

(** A repeated key keeps its last value. *)
Example readSessionId_last_member :
  lineSessionId JSON_parse (quoted "{'session_id':'a','session_id':'b'}")
  = Some (js "b").
Proof. by vm_compute. Qed.

(** A last line [null] parses, and the read of its property throws: the
    outer [catch] answers, and the earlier lines are not scanned. *)
Example extractSessionId_null_last_line :
  extractSessionId JSON_parse (unlines [quoted "{'session_id':'s1'}"; js "null"])
  = None.
Proof. by vm_compute. Qed.

(** The third group is greedy: it runs to the end of the line, later bars
    and trailing blanks included. *)
Example extractDecisionPoints_third_field :
  extractDecisionPoints (js "[DECISION_POINT] a | b | c | d  ")
  = [ {| description := js "a"; chosen := js "b"; rejected := js "c | d  " |} ].
Proof. by vm_compute. Qed.

Example extractDecisionPoints_no_marker :
  extractDecisionPoints (js "a | b | c") = [].
Proof. by vm_compute. Qed.

(** Groups come in the order of first occurrence, comments in arrival order. *)
Example groupByPR_order :
  let c pr i := {| commentId := i; prNumber := pr; commentBody := [];
                   user := js "u"; path := None; line := None;
                   createdAt := [] |} in
  groupByPR [c 9 1; c 4 2; c 9 3]%Z = [(9, [c 9 1; c 9 3]); (4, [c 4 2])]%Z.
Proof. by vm_compute. Qed.

Example dec_renders_decimal : dec 42 = js "42" /\ dec (-7) = js "-7".
Proof. by vm_compute. Qed.

End Examples.

(** * Further properties of the sources *)

(** ** worker-pool.ts: the shutdown wait *)

Module Shutdown.
Import Js Types WorkerPool.

Section WaitForAll.
Context {H : Type}.

(** The loop [while (Date.now() < deadline)] of [waitForAll]. Each entry of
    the schedule is one test of the loop: the clock read by the test, and what
    the others do to the pool during the second the loop sleeps after it.
    [None]: the schedule ends while the loop still waits. *)
Fixpoint waitLoop (deadline : Z) (schedule : list (Z * list (op H)))
    (s : running H) : option (running H) :=
  match schedule with
  | [] => None
  | (now, others) :: rest =>
      if (now <? deadline)%Z then
        if (activeCount (pool s) =? 0)%nat then Some s
        else waitLoop deadline rest (foldl (fun s o => step o s) s others)
      else Some (step CancelAll s)
  end.

(** [waitForAll(timeoutMs)], started when the clock reads [start]. *)
Definition waitForAll (timeoutMs : Z) (start : Z)
    (schedule : list (Z * list (op H))) (s : running H) : option (running H) :=
  if (activeCount (pool s) =? 0)%nat then Some s
  else waitLoop (start + timeoutMs)%Z schedule s.

End WaitForAll.

(** The number of tasks a pool built with this limit runs at once. *)
Definition capacity (maxConcurrency : number_) : nat :=
  match maxConcurrency with
  | Num m => Z.to_nat m
  | NaN => 0
  end.

End Shutdown.

Module WorkerPoolLaws.
Import Js Types WorkerPool WorkerPoolProofs Shutdown.

Definition countIf (f : WorkerTask -> bool) (m : gmap (list N) WorkerTask) : nat :=
  length (List.filter f (map_to_list m).*2).

Lemma filter_length_Permutation {A : Type} (f : A -> bool) (l l' : list A) :
  l ≡ₚ l' -> length (List.filter f l) = length (List.filter f l').
Proof.
  induction 1 as [|x l l' _ IH|x y l|l l' l'' _ IH1 _ IH2]; simpl.
  - done.
  - destruct (f x); simpl; congruence.
  - destruct (f x), (f y); simpl; congruence.
  - congruence.
Qed.

Lemma countIf_insert f m k t :
  countIf f (<[k:=t]> m) = (if f t then 1 else 0) + countIf f (delete k m).
Proof.
  unfold countIf. rewrite <- insert_delete_eq.
  rewrite (filter_length_Permutation f _ ((k, t) :: map_to_list (delete k m)).*2).
  - simpl. by destruct (f t).
  - apply fmap_Permutation, map_to_list_insert, lookup_delete_eq.
Qed.

Lemma countIf_delete f m k :
  countIf f m
  = match m !! k with
    | Some t => if f t then 1 else 0
    | None => 0
    end + countIf f (delete k m).
Proof.
  destruct (m !! k) as [t|] eqn:Hk.
  - unfold countIf.
    rewrite <- (filter_length_Permutation f ((k, t) :: map_to_list (delete k m)).*2).
    + simpl. by destruct (f t).
    + apply fmap_Permutation. by apply map_to_list_delete.
  - by rewrite delete_id.
Qed.

Lemma countIf_fmap f g m : countIf f (g <$> m) = countIf (f ∘ g) m.
Proof.
  unfold countIf.
  rewrite map_to_list_fmap.
  induction (map_to_list m) as [|[k t] l IH]; [done|].
  cbn [fmap list_fmap snd prod_map List.filter compose] in *.
  destruct (f (g t)); cbn [length]; by rewrite IH.
Qed.

Lemma countIf_none f m :
  (forall k t, m !! k = Some t -> f t = false) -> countIf f m = 0.
Proof.
  intros Hnone. unfold countIf.
  assert (Hin : forall kt, kt ∈ map_to_list m -> f kt.2 = false).
  { intros [k t] Hkt. apply (Hnone k). by apply elem_of_map_to_list. }
  induction (map_to_list m) as [|[k t] l IH]; [done|].
  pose proof (Hin (k, t) ltac:(left)) as Hf. simpl in *. rewrite Hf.
  apply IH. intros kt Hkt. apply Hin. by right.
Qed.

Lemma activeCount_countIf p : activeCount p = countIf isInProgress (tasks p).
Proof. reflexivity. Qed.

(** What an accepted submission does to the registry. *)
Lemma submit_accepted {H : Type} taskId ty n (h : H) pr p :
  canAccept p = true -> has taskId p = false ->
  submit taskId ty n h pr p
  = ({| tasks := <[taskId :=
            {| id := taskId; type := ty; issueNumber := n; taskPrNumber := pr;
               status := InProgress; aborted := false |}]> (tasks p);
        maxConcurrency := maxConcurrency p |}, Some h).
Proof. intros Hc Hh. unfold submit. by rewrite Hc, Hh. Qed.

Lemma has_false_not_in_progress taskId p :
  has taskId p = false ->
  match tasks p !! taskId with
  | Some t => if isInProgress t then 1 else 0
  | None => 0
  end = 0.
Proof.
  unfold has, isInProgress. destruct (tasks p !! taskId) as [t|]; [|done].
  intros [-> _]%orb_false_iff. done.
Qed.

Lemma submit_accepted_effect
    {H : Type} taskId ty n (h : H) pr (p : WorkerPool) :
  canAccept p = true -> has taskId p = false ->
  let p' := (submit taskId ty n h pr p).1 in
  activeCount p' = S (activeCount p)
  /\ has taskId p' = true
  /\ (forall k, k <> taskId -> tasks p' !! k = tasks p !! k)
  /\ (exists t, tasks p' !! taskId = Some t /\ aborted t = false
                /\ id t = taskId /\ issueNumber t = n).
Proof.
  intros Hc Hh p'. subst p'. rewrite submit_accepted by done. cbn [fst tasks].
  split; [|split; [|split]].
  - rewrite !activeCount_countIf. cbn [tasks].
    rewrite countIf_insert, (countIf_delete _ (tasks p) taskId).
    rewrite (has_false_not_in_progress _ _ Hh). done.
  - unfold has. cbn [tasks]. by rewrite lookup_insert_eq.
  - intros k Hk. by rewrite lookup_insert_ne.
  - eexists. rewrite lookup_insert_eq. done.
Qed.

Lemma updateStatus_activeCount taskId st p :
  st <> InProgress -> activeCount (updateStatus taskId st p) <= activeCount p.
Proof.
  intros Hst. unfold updateStatus.
  destruct (tasks p !! taskId) as [task|] eqn:Htask; [|done].
  rewrite !activeCount_countIf. cbn [tasks].
  rewrite countIf_insert, (countIf_delete _ (tasks p) taskId), Htask.
  assert (isInProgress (setStatus st task) = false) as ->
    by (by apply bool_decide_eq_false).
  lia.
Qed.

Lemma cancelTask_not_in_progress t : isInProgress (cancelTask t) = false.
Proof.
  unfold cancelTask. destruct (isInProgress t) eqn:Ht; [|done].
  by apply bool_decide_eq_false.
Qed.

Lemma cancelAll_activeCount p : activeCount (cancelAll p) = 0.
Proof.
  rewrite activeCount_countIf. cbn [cancelAll tasks]. rewrite countIf_fmap.
  apply countIf_none. intros k t _. apply cancelTask_not_in_progress.
Qed.

Lemma canAccept_capacity p :
  canAccept p = true -> S (activeCount p) <= capacity (maxConcurrency p).
Proof.
  intros (m & -> & Hlt)%canAccept_spec. simpl. lia.
Qed.

Lemma step_maxConcurrency {H : Type} (o : op H) s :
  maxConcurrency (pool (step o s)) = maxConcurrency (pool s).
Proof.
  destruct o as [taskId ty n h pr|taskId ok|]; simpl.
  - destruct (submit_cases taskId ty n h pr (pool s)) as [[-> _]|(_ & _ & ->)];
      done.
  - destruct (takeHandler taskId (inFlight s)); [|done]. simpl.
    unfold settled, updateStatus. by destruct (tasks (pool s) !! taskId).
  - done.
Qed.

Lemma step_activeCount_bound {H : Type} (o : op H) s :
  activeCount (pool s) <= capacity (maxConcurrency (pool s)) ->
  activeCount (pool (step o s)) <= capacity (maxConcurrency (pool s)).
Proof.
  intros Hbound. destruct o as [taskId ty n h pr|taskId ok|]; simpl.
  - destruct (submit_cases taskId ty n h pr (pool s))
      as [[Heq _]|(Hc & Hh & Heq)].
    + by rewrite Heq.
    + pose proof (submit_accepted_effect taskId ty n h pr (pool s) Hc Hh)
        as [Hac _].
      rewrite Heq in *. simpl in *. rewrite Hac. by apply canAccept_capacity.
  - destruct (takeHandler taskId (inFlight s)); [|done]. simpl.
    etrans; [apply updateStatus_activeCount; by destruct ok|done].
  - rewrite cancelAll_activeCount. lia.
Qed.

Lemma reachable_activeCount_bound {H : Type} (m : number_) (s : running H) :
  reachable m s ->
  maxConcurrency (pool s) = m /\ activeCount (pool s) <= capacity m.
Proof.
  induction 1 as [|o s _ [Hm Hbound]].
  - split; [done|]. by vm_compute; lia.
  - rewrite step_maxConcurrency. split; [done|].
    rewrite <- Hm. apply step_activeCount_bound. by rewrite Hm.
Qed.


(** X13. An accepted submission (the pool can accept and does not have the
    key) registers the task in progress with its abort signal down, adds
    exactly one to the number of tasks in progress, even when it replaces a
    finished task of the same key, and leaves every other key as it was. *)
Theorem submit_accepted_activeCount
    {H : Type} (taskId : list N) (ty : TaskType) (n : Z) (h : H)
    (pr : option Z) (p : WorkerPool) :
  canAccept p = true -> has taskId p = false ->
  let p' := (submit taskId ty n h pr p).1 in
  activeCount p' = S (activeCount p)
  /\ has taskId p' = true
  /\ (forall k, k <> taskId -> tasks p' !! k = tasks p !! k)
  /\ (exists t, tasks p' !! taskId = Some t /\ aborted t = false
                /\ id t = taskId /\ issueNumber t = n).
Proof. apply submit_accepted_effect. Qed.

Lemma submit_accepted_activeCount_witness :
  let p := settled (js "a") true
             (submit (js "a") Issue 1 tt None (new (Num 1))).1 in
  activeCount p = 0
  /\ activeCount (submit (js "a") Issue 1 tt None p).1 = 1.
Proof.
  intros p. split; [by vm_compute|].
  apply (submit_accepted_activeCount (js "a") Issue 1 tt None p); by vm_compute.
Defined.


Lemma reachable_without_capacity {H : Type} (m : number_) (s : running H) :
  capacity m = 0 -> reachable m s ->
  tasks (pool s) = ∅ /\ inFlight s = [].
Proof.
  intros Hcap Hreach.
  pose proof (reachable_activeCount_bound m s Hreach) as [Hm _].
  induction Hreach as [|o s Hreach IH]; [done|].
  pose proof (reachable_activeCount_bound m s Hreach) as [Hm' _].
  destruct (IH Hm') as [Hempty Hnone]. clear IH.
  assert (Hfull : canAccept (pool s) = false).
  { destruct (canAccept (pool s)) eqn:Hc; [|done].
    apply canAccept_capacity in Hc. rewrite Hm', Hcap in Hc. lia. }
  destruct o as [taskId ty n h pr|taskId ok|]; simpl.
  - unfold submit. by rewrite Hfull.
  - by rewrite Hnone.
  - by rewrite Hempty, fmap_empty.
Qed.

(** X2. A pool whose limit is NaN, zero or negative never registers a task
    and never invokes a handler. *)
Theorem pool_without_capacity_stays_empty
    {H : Type} (m : number_) (s : running H) :
  capacity m = 0 -> reachable m s ->
  tasks (pool s) = ∅ /\ inFlight s = [].
Proof. apply reachable_without_capacity. Qed.

Lemma pool_without_capacity_stays_empty_witness :
  let s := step (Submit (js "a") Issue 1 tt None) (start unit NaN) in
  tasks (pool s) = ∅ /\ inFlight s = [].
Proof.
  intros s. apply (pool_without_capacity_stays_empty NaN s); [done|].
  apply reachable_step, reachable_start.
Defined.

(** X3. The registry never evicts: whatever the operation, a key that was
    registered stays registered, and the registry does not shrink. *)
Theorem registry_never_evicts {H : Type} (o : op H) (s : running H) :
  size (tasks (pool s)) <= size (tasks (pool (step o s)))
  /\ forall k, is_Some (tasks (pool s) !! k) ->
               is_Some (tasks (pool (step o s)) !! k).
Proof.
  destruct o as [taskId ty n h pr|taskId ok|]; simpl.
  - destruct (submit_cases taskId ty n h pr (pool s)) as [[-> _]|(_ & _ & ->)];
      simpl; [done|]. split.
    + destruct (tasks (pool s) !! taskId) as [t0|] eqn:Ht0.
      * rewrite map_size_insert_Some; [lia|eauto].
      * rewrite map_size_insert_None; [lia|done].
    + intros k Hk. rewrite lookup_insert. by case_decide.
  - destruct (takeHandler taskId (inFlight s)); [|done]. simpl.
    unfold settled, updateStatus.
    destruct (tasks (pool s) !! taskId) as [task|] eqn:Htask; [|done].
    simpl. split.
    + by rewrite map_size_insert_Some.
    + intros k Hk. rewrite lookup_insert. by case_decide.
  - split.
    + by rewrite map_size_fmap.
    + intros k Hk. rewrite lookup_fmap. by apply fmap_is_Some.
Qed.

Lemma cancelAll_effect (p : WorkerPool) :
  activeCount (cancelAll p) = 0
  /\ (forall k t, tasks p !! k = Some t ->
        status t = InProgress ->
        exists t', tasks (cancelAll p) !! k = Some t'
                   /\ status t' = Failed /\ aborted t' = true /\ id t' = id t)
  /\ (forall k t, tasks p !! k = Some t ->
        status t <> InProgress -> tasks (cancelAll p) !! k = Some t)
  /\ (forall k, tasks p !! k = None -> tasks (cancelAll p) !! k = None)
  /\ cancelAll (cancelAll p) = cancelAll p.
Proof.
  split; [apply cancelAll_activeCount|].
  split; [|split; [|split]].
  - intros k t Ht Hst. cbn [cancelAll tasks]. rewrite lookup_fmap, Ht.
    exists (cancelTask t). split; [done|]. unfold cancelTask, isInProgress.
    by rewrite bool_decide_eq_true_2.
  - intros k t Ht Hst. cbn [cancelAll tasks]. rewrite lookup_fmap, Ht.
    change (Some (cancelTask t) = Some t). unfold cancelTask, isInProgress.
    by rewrite bool_decide_eq_false_2.
  - intros k Hk. cbn [cancelAll tasks]. by rewrite lookup_fmap, Hk.
  - unfold cancelAll. cbn [tasks maxConcurrency]. f_equal.
    rewrite <- map_fmap_compose. apply map_fmap_ext. intros k t _.
    unfold compose. unfold cancelTask at 1.
    by rewrite cancelTask_not_in_progress.
Qed.

(** X4. [cancelAll] leaves no task in progress: each task that was in
    progress is failed and its abort signal raised, every other task is as
    it was; and a second [cancelAll] changes nothing. *)
Theorem cancelAll_fails_and_aborts_active_tasks (p : WorkerPool) :
  activeCount (cancelAll p) = 0
  /\ (forall k t, tasks p !! k = Some t ->
        status t = InProgress ->
        exists t', tasks (cancelAll p) !! k = Some t'
                   /\ status t' = Failed /\ aborted t' = true /\ id t' = id t)
  /\ (forall k t, tasks p !! k = Some t ->
        status t <> InProgress -> tasks (cancelAll p) !! k = Some t)
  /\ (forall k, tasks p !! k = None -> tasks (cancelAll p) !! k = None)
  /\ cancelAll (cancelAll p) = cancelAll p.
Proof. apply cancelAll_effect. Qed.

(** X5. A cancelled task does not stay failed: when its handler settles
    afterwards, the settlement overwrites the status, so a task cancelled at
    shutdown whose handler resolves is recorded as completed, with its abort
    signal still raised. *)
Theorem settlement_after_cancelAll_overwrites_failed
    (p : WorkerPool) (k : list N) (t : WorkerTask) (fulfilled : bool) :
  tasks p !! k = Some t -> status t = InProgress ->
  exists t', tasks (settled k fulfilled (cancelAll p)) !! k = Some t'
             /\ status t' = (if fulfilled then Completed else Failed)
             /\ aborted t' = true.
Proof.
  intros Ht Hst.
  destruct (cancelAll_effect p) as (_ & Hact & _). destruct (Hact k t Ht Hst) as (t1 & Ht1 & _ & Hab & _).
  unfold settled, updateStatus. rewrite Ht1. cbn [tasks].
  rewrite lookup_insert_eq. eexists. split; [done|]. by split.
Qed.

Lemma settlement_after_cancelAll_overwrites_failed_witness :
  let p := (submit (js "issue-1") Issue 1 tt None (new (Num 1))).1 in
  exists t', tasks (settled (js "issue-1") true (cancelAll p)) !! js "issue-1"
             = Some t'
             /\ status t' = Completed /\ aborted t' = true.
Proof.
  intros p.
  apply (settlement_after_cancelAll_overwrites_failed p (js "issue-1")
           {| id := js "issue-1"; type := Issue; issueNumber := 1;
              taskPrNumber := None; status := InProgress; aborted := false |}
           true); by vm_compute.
Defined.

(** Every task in progress has its handler in flight. *)
Definition activeHaveHandlers {H : Type} (s : running H) : Prop :=
  forall k t, tasks (pool s) !! k = Some t -> status t = InProgress ->
              k ∈ (inFlight s).*1.

Lemma takeHandler_keys {H : Type} taskId (hs rest : list (list N * H)) k :
  takeHandler taskId hs = Some rest -> k <> taskId -> k ∈ hs.*1 -> k ∈ rest.*1.
Proof.
  revert rest. induction hs as [|[k' h] hs IH]; intros rest; [done|].
  simpl. case_decide as Hk'.
  - intros [= <-] Hne Hin. subst k'.
    apply elem_of_cons in Hin as [Heq|Hin]; [done|done].
  - destruct (takeHandler taskId hs) as [rest'|]; [|done].
    intros [= <-] Hne Hin. simpl.
    apply elem_of_cons in Hin as [->|Hin]; [left|right; by apply IH].
Qed.

(** X6. In every reachable state, each task in progress has a handler in
    flight under its key: no task stays in progress without a handler whose
    settlement will end it. *)
Theorem task_in_progress_has_handler_in_flight
    {H : Type} (m : number_) (s : running H) :
  reachable m s -> activeHaveHandlers s.
Proof.
  induction 1 as [|o s _ IH]; [intros k t; simpl; by rewrite lookup_empty|].
  intros k t. destruct o as [taskId ty n h pr|taskId ok|]; simpl.
  - destruct (submit_cases taskId ty n h pr (pool s)) as [[-> _]|(_ & _ & ->)];
      simpl; [apply IH|].
    rewrite lookup_insert, fmap_app, elem_of_app. case_decide as Hk.
    + intros _ _. right. subst. simpl. left.
    + intros Ht Hst. left. by eapply IH.
  - destruct (takeHandler taskId (inFlight s)) as [rest|] eqn:Htake;
      [|apply IH]. simpl. unfold settled, updateStatus.
    destruct (tasks (pool s) !! taskId) as [task|] eqn:Htask; simpl.
    + rewrite lookup_insert. case_decide as Hk.
      * intros [= <-]. by destruct ok.
      * intros Ht Hst. eapply takeHandler_keys; [done|done|by eapply IH].
    + intros Ht Hst. eapply takeHandler_keys; [done| |by eapply IH].
      intros ->. congruence.
  - rewrite lookup_fmap. destruct (tasks (pool s) !! k) as [t0|]; [|done].
    intros [= <-]. rewrite cancelTask_status.
    destruct (isInProgress t0) eqn:Ht0; [done|].
    intros Hst. by apply bool_decide_eq_false in Ht0.
Qed.

Lemma task_in_progress_has_handler_in_flight_witness :
  let s := step (Submit (js "a") Issue 1 tt None)
             (step CancelAll
                (step (Submit (js "a") Issue 1 tt None) (start unit (Num 2)))) in
  activeHaveHandlers s.
Proof.
  intros s. apply (task_in_progress_has_handler_in_flight (Num 2) s).
  repeat apply reachable_step. apply reachable_start.
Defined.

Lemma foldl_step_reachable {H : Type} m (others : list (op H)) s :
  reachable m s -> reachable m (foldl (fun s o => step o s) s others).
Proof.
  revert s. induction others as [|o others IH]; intros s Hs; [done|].
  simpl. apply IH. by apply reachable_step.
Qed.

Lemma waitLoop_done {H : Type} m deadline (schedule : list (Z * list (op H))) s s' :
  reachable m s ->
  waitLoop deadline schedule s = Some s' ->
  activeCount (pool s') = 0 /\ reachable m s'.
Proof.
  revert s. induction schedule as [|[now others] rest IH]; intros s Hs; [done|].
  simpl. destruct (now <? deadline)%Z.
  - destruct (activeCount (pool s) =? 0)%nat eqn:Hidle.
    + intros [= <-]. by apply Nat.eqb_eq in Hidle.
    + apply IH. by apply foldl_step_reachable.
  - intros [= <-]. split; [apply cancelAll_activeCount|].
    by apply (reachable_step m CancelAll).
Qed.

(** X7. When [waitForAll] returns, no task is in progress, whether the tasks
    finished in time or the wait timed out and cancelled them; and the pool
    it leaves is one the pool's own operations produce. *)
Theorem waitForAll_returns_with_no_task_in_progress
    {H : Type} (m : number_) (timeoutMs start : Z)
    (schedule : list (Z * list (op H))) (s s' : running H) :
  reachable m s ->
  waitForAll timeoutMs start schedule s = Some s' ->
  activeCount (pool s') = 0 /\ reachable m s'.
Proof.
  intros Hs. unfold waitForAll.
  destruct (activeCount (pool s) =? 0)%nat eqn:Hidle.
  - intros [= <-]. by apply Nat.eqb_eq in Hidle.
  - by apply waitLoop_done.
Qed.

Lemma waitForAll_returns_with_no_task_in_progress_witness :
  let s := step (Submit (js "a") Issue 1 tt None) (start unit (Num 2)) in
  exists s',
    waitForAll 30000 1000 [(1001, []); (2002, []); (31000, [])]%Z s = Some s'
    /\ activeCount (pool s') = 0.
Proof.
  intros s. eexists. split; [by vm_compute|].
  refine (proj1 (waitForAll_returns_with_no_task_in_progress (Num 2) 30000 1000
                   [(1001, []); (2002, []); (31000, [])]%Z s _ _ _)).
  - apply reachable_step, reachable_start.
  - by vm_compute.
Defined.

(** X8. [waitForAll] does not wait past its deadline: as soon as a test of
    the loop reads a clock at or after [start + timeoutMs], it returns,
    whatever the tasks do. *)
Theorem waitForAll_returns_at_deadline
    {H : Type} (timeoutMs start : Z) (schedule : list (Z * list (op H)))
    (s : running H) :
  Exists (fun entry => (start + timeoutMs <= entry.1)%Z) schedule ->
  is_Some (waitForAll timeoutMs start schedule s).
Proof.
  intros Hlate. unfold waitForAll.
  destruct (activeCount (pool s) =? 0)%nat; [by eexists|].
  revert s. induction Hlate as [[now others] rest Hnow|[now others] rest _ IH];
    intros s; simpl in *.
  - rewrite (proj2 (Z.ltb_ge _ _)) by done. by eexists.
  - destruct (now <? start + timeoutMs)%Z; [|by eexists].
    destruct (activeCount (pool s) =? 0)%nat; [by eexists|apply IH].
Qed.

Lemma waitForAll_returns_at_deadline_witness :
  is_Some (waitForAll 30000 1000 [(1001, []); (31000, [])]%Z
             (step (Submit (js "a") Issue 1 tt None) (start unit (Num 2)))).
Proof.
  apply waitForAll_returns_at_deadline.
  apply Exists_cons_tl, Exists_cons_hd. simpl. lia.
Defined.

End WorkerPoolLaws.

(** ** poller.ts: grouping, keys and the pool *)

Module PollerLaws.
Import Js Types Run Poller RunProofs PollerProofs WorkerPoolProofs WorkerPoolLaws.

(** The change requests of a batch of comments, each once, in the order of
    their first comment. *)
Definition firstKeys (comments : list ReviewComment) : list Z :=
  fold_left (fun ks c => if decide (prNumber c ∈ ks) then ks else ks ++ [prNumber c])
            comments [].

(** The comments of one change request, in arrival order. *)
Definition commentsOf (k : Z) (comments : list ReviewComment) : list ReviewComment :=
  List.filter (fun c => bool_decide (prNumber c = k)) comments.

Lemma groupByPR_snoc l c : groupByPR (l ++ [c]) = addToGroup c (groupByPR l).
Proof. unfold groupByPR. by rewrite fold_left_app. Qed.

Lemma firstKeys_snoc l c :
  firstKeys (l ++ [c])
  = if decide (prNumber c ∈ firstKeys l) then firstKeys l
    else firstKeys l ++ [prNumber c].
Proof. unfold firstKeys. by rewrite fold_left_app. Qed.

Lemma commentsOf_snoc k l c :
  commentsOf k (l ++ [c])
  = commentsOf k l ++ (if decide (prNumber c = k) then [c] else []).
Proof.
  unfold commentsOf. rewrite List.filter_app. simpl.
  by destruct (decide (prNumber c = k)) as [->|Hne];
    [rewrite bool_decide_eq_true_2|rewrite bool_decide_eq_false_2].
Qed.

Lemma commentsOf_nil k l :
  (forall c, c ∈ l -> prNumber c <> k) -> commentsOf k l = [].
Proof.
  unfold commentsOf. induction l as [|c l IH]; intros Hl; [done|]. simpl.
  rewrite bool_decide_eq_false_2 by (apply Hl; left).
  apply IH. intros c' Hc'. apply Hl. by right.
Qed.

Lemma addToGroup_absent c (f : Z -> list ReviewComment) ks :
  prNumber c ∉ ks ->
  addToGroup c ((fun k => (k, f k)) <$> ks)
  = ((fun k => (k, f k)) <$> ks) ++ [(prNumber c, [c])].
Proof.
  induction ks as [|k ks IH]; intros Hnot; [done|].
  apply not_elem_of_cons in Hnot as [Hne Hnot]. csimpl.
  rewrite decide_False by done. by rewrite IH.
Qed.

Lemma addToGroup_present c (f : Z -> list ReviewComment) ks :
  NoDup ks -> prNumber c ∈ ks ->
  addToGroup c ((fun k => (k, f k)) <$> ks)
  = (fun k => (k, f k ++ (if decide (prNumber c = k) then [c] else []))) <$> ks.
Proof.
  induction 1 as [|k ks Hk Hks IH]; intros Hin; [by apply elem_of_nil in Hin|].
  csimpl. destruct (decide (k = prNumber c)) as [->|Hne].
  - case_decide; [|done]. f_equal.
    apply list_fmap_ext. intros i k' Hk'.
    case_decide as Heq; [|by rewrite app_nil_r].
    subst k'. exfalso. apply Hk. by eapply list_elem_of_lookup_2.
  - case_decide as Heq; [by subst|]. rewrite app_nil_r.
    f_equal. apply IH. by apply elem_of_cons in Hin as [?|?].
Qed.

Lemma groupByPR_closed_form l :
  groupByPR l = (fun k => (k, commentsOf k l)) <$> firstKeys l
  /\ NoDup (firstKeys l)
  /\ (forall k, k ∈ firstKeys l <-> exists c, c ∈ l /\ prNumber c = k).
Proof.
  induction l as [|c l (IHg & IHn & IHk)] using rev_ind.
  - split; [done|]. split; [constructor|].
    intros k. split; [by intros ?%elem_of_nil|].
    by intros (c & ?%elem_of_nil & _).
  - rewrite groupByPR_snoc, firstKeys_snoc, IHg.
    destruct (decide (prNumber c ∈ firstKeys l)) as [Hin|Hnot].
    + split; [|split; [done|]].
      * rewrite addToGroup_present by done.
        apply list_fmap_ext. intros i k _. by rewrite commentsOf_snoc.
      * intros k. rewrite IHk. split.
        -- intros (c' & Hc' & <-). exists c'. split; [|done].
           apply elem_of_app. by left.
        -- intros (c' & [Hc'|Hc'%list_elem_of_singleton]%elem_of_app & <-).
           ++ eauto.
           ++ subst c'. by apply IHk.
    + split; [|split].
      * rewrite addToGroup_absent by done. rewrite fmap_app. f_equal.
        -- apply list_fmap_ext. intros i k Hk. rewrite commentsOf_snoc.
           case_decide as Heq; [|by rewrite app_nil_r].
           subst k. exfalso. apply Hnot. by eapply list_elem_of_lookup_2.
        -- simpl. rewrite commentsOf_snoc. case_decide; [|done].
           rewrite commentsOf_nil; [done|].
           intros c' Hc' Heq. apply Hnot, IHk. eauto.
      * apply NoDup_app. split; [done|]. split; [|apply NoDup_singleton].
        intros k Hk Hk'%list_elem_of_singleton. by subst k.
      * intros k. rewrite elem_of_app, list_elem_of_singleton, IHk. split.
        -- intros [(c' & Hc' & <-)| ->].
           ++ exists c'. split; [|done]. apply elem_of_app. by left.
           ++ exists c. split; [|done]. apply elem_of_app. right. by left.
        -- intros (c' & [Hc'|Hc'%list_elem_of_singleton]%elem_of_app & <-);
             [left; eauto|subst c'; by right].
Qed.

Lemma elem_of_commentsOf c k l :
  c ∈ commentsOf k l <-> c ∈ l /\ prNumber c = k.
Proof.
  unfold commentsOf. rewrite !list_elem_of_In, List.filter_In.
  by rewrite bool_decide_eq_true.
Qed.

Lemma groupByPR_groups comments k cs :
  (k, cs) ∈ groupByPR comments -> cs <> [] /\ cs = commentsOf k comments.
Proof.
  destruct (groupByPR_closed_form comments) as (Hg & Hn & Hk).
  rewrite Hg. intros (k' & [= -> ->] & Hin)%list_elem_of_fmap. split; [|done].
  apply Hk in Hin as (c & Hc & Hpr).
  assert (Hin : c ∈ commentsOf k' comments) by by apply elem_of_commentsOf.
  intros Hnil. rewrite Hnil in Hin. by apply elem_of_nil in Hin.
Qed.

(** X9. The grouping of a batch of comments is a partition of it by change
    request: the groups come one per change request, in the order of each
    one's first comment; a group holds exactly the comments of its change
    request, in arrival order; no group is empty and no comment is lost. *)
Theorem groupByPR_partitions_comments (comments : list ReviewComment) :
  (groupByPR comments).*1 = firstKeys comments
  /\ NoDup (groupByPR comments).*1
  /\ (forall k cs, (k, cs) ∈ groupByPR comments ->
        cs <> [] /\ cs = commentsOf k comments)
  /\ (forall c, c ∈ comments ->
        exists cs, (prNumber c, cs) ∈ groupByPR comments /\ c ∈ cs).
Proof.
  destruct (groupByPR_closed_form comments) as (Hg & Hn & Hk).
  assert (Hkeys : (groupByPR comments).*1 = firstKeys comments).
  { rewrite Hg, <- list_fmap_compose. rewrite <- (list_fmap_id (firstKeys _)) at 2.
    by apply list_fmap_ext. }
  split; [done|]. split; [by rewrite Hkeys|]. split.
  - apply groupByPR_groups.
  - intros c Hc. exists (commentsOf (prNumber c) comments). split.
    + rewrite Hg. apply list_elem_of_fmap. exists (prNumber c).
      split; [done|]. apply Hk. eauto.
    + by apply elem_of_commentsOf.
Qed.

Section Poller.
Variable w : World.

(** The loop over the groups cannot throw when no group is empty. *)
Lemma forEachGroup_resolves groups s :
  (forall k cs, (k, cs) ∈ groups -> cs <> []) ->
  (forEachGroup w groups s).2 = inr tt.
Proof.
  revert s. induction groups as [|[prNumber prComments] rest IH];
    intros s Hne; [done|].
  cbn [forEachGroup]. unfold bind at 1, readClock at 1.
  unfold bind at 1, get at 1.
  destruct (WorkerPool.canAccept _); cbn [negb]; [|done].
  destruct prComments as [|first others].
  - by destruct (Hne prNumber []); [left|].
  - unfold bind at 1.
    destruct (submit_adds
                (js "review-" ++ dec prNumber ++ js "-"
                 ++ dec (time w Z (history s) DateNow)) Review
                (Types.prNumber first)
                (ReviewJob prNumber (first :: others)) (Some prNumber)
                (withHistory
                   (history s ++ [Read DateNow (time w Z (history s) DateNow)]) s))
      as (s1 & -> & _).
    apply IH. intros k cs Hin. apply (Hne k). by right.
Qed.

(** X10. A scan rejects exactly when its listing call to the tracker
    rejects, and then with that call's error: nothing else in a scan can
    throw (the loops do not, and no group of comments is ever empty). *)
Theorem scan_rejects_only_when_its_listing_rejects (s : process) :
  (pollIssues w s).2
  = match answer w _ (history s) (FetchLabeledIssues (js "auto-implement")) with
    | inl e => inl e
    | inr _ => inr tt
    end
  /\ (pollReviewComments w s).2
     = match answer w _ (history s) (FetchReviewComments (lastPollTime s)) with
       | inl e => inl e
       | inr _ => inr tt
       end.
Proof.
  split.
  - destruct (pollIssues_adds w s) as (s1 & _ & ->). done.
  - unfold pollReviewComments. unfold bind at 1, get at 1. unfold bind.
    rewrite perform_eq.
    destruct (answer w _ (history s) (FetchReviewComments (lastPollTime s)))
      as [e|comments]; [done|].
    destruct comments as [|c rest]; [done|].
    apply forEachGroup_resolves. intros k cs Hin.
    by apply groupByPR_groups in Hin as [? _].
Qed.










End Poller.



Lemma js_inj (a b : string) : js a = js b -> a = b.
Proof.
  unfold js. intros Heq.
  rewrite <- (string_of_list_ascii_of_string a),
          <- (string_of_list_ascii_of_string b).
  f_equal. revert Heq.
  generalize (list_ascii_of_string a) (list_ascii_of_string b).
  induction l as [|x l IH]; intros [|y l']; simpl; try done.
  intros [= Hxy Hl]. f_equal; [|by apply IH].
  rewrite <- (ascii_N_embedding x), <- (ascii_N_embedding y). by rewrite Hxy.
Qed.

(** X12. The idempotency keys tell the work apart: two items have the same
    key only when they have the same number, and the key of an item is never
    the key of a feedback task. *)
Theorem task_keys_are_distinct (a b prNumber now : Z) :
  (js "issue-" ++ dec a = js "issue-" ++ dec b -> a = b)
  /\ js "issue-" ++ dec a
     <> js "review-" ++ dec prNumber ++ js "-" ++ dec now.
Proof.
  split.
  - intros Heq. apply app_inv_head in Heq. unfold dec in Heq.
    by apply js_inj, (inj pretty) in Heq.
  - by vm_compute.
Qed.

End PollerLaws.

(** ** Runs: which calls a stretch of code can make *)

Module RunLaws.
Import Js Types Claude Run RunProofs.

(** A call without its answer. *)
Inductive anyCall :=
| AnyCall {A : Type} (c : call A).

(** The calls of a run in the order they were made; clock reads left out. *)
Definition callsOf (events : list event) : list anyCall :=
  omap (fun e => match e with
                 | Called c _ => Some (AnyCall c)
                 | Read _ _ => None
                 end) events.

(** A world in which no call fails. *)
Definition neverFails (w : World) : Prop :=
  forall (A : Type) (h : list event) (c : call A), exists a, answer w A h c = inr a.

(** A world in which the agent, when it runs, exits with code 0. *)
Definition agentSucceeds (w : World) : Prop :=
  forall (h : list event) (options : ClaudeRunOptions) (p : processExit),
    answer w processExit h (Spawn options) = inr p -> code p = Some 0%Z.

(** The result [runClaude] makes of a process exit. *)
Definition resultOf (p : processExit) : ClaudeResult :=
  {| exitCode := default 1%Z (code p); stdout := out p; stderr := err p;
     sessionId := extractSessionId JSON_parse (out p) |}.

(** A stretch of a run that records only events passing [Q], and leaves the
    pool and the poller's timestamp alone. *)
Definition emits (Q : event -> bool) (s s' : process) : Prop :=
  exists tr, history s' = history s ++ tr
             /\ forallb Q tr = true
             /\ workerPool s' = workerPool s
             /\ lastPollTime s' = lastPollTime s.

Definition emitsM (Q : event -> bool) {A : Type} (m : M A) : Prop :=
  forall s, emits Q s (m s).1.

Lemma emits_refl Q s : emits Q s s.
Proof. exists []. by rewrite app_nil_r. Qed.

Lemma emits_trans Q s1 s2 s3 : emits Q s1 s2 -> emits Q s2 s3 -> emits Q s1 s3.
Proof.
  intros (tr1 & H1 & Q1 & P1 & T1) (tr2 & H2 & Q2 & P2 & T2).
  exists (tr1 ++ tr2). rewrite H2, H1, app_assoc, forallb_app, Q1, Q2.
  repeat split; congruence.
Qed.

Lemma emitsM_ret Q {A : Type} (a : A) : emitsM Q (ret a).
Proof. intros s. apply emits_refl. Qed.

Lemma emitsM_throw Q {A : Type} e : emitsM Q (@throw A e).
Proof. intros s. apply emits_refl. Qed.

Lemma emitsM_get Q {A : Type} (f : process -> A) : emitsM Q (get f).
Proof. intros s. apply emits_refl. Qed.

Lemma emitsM_perform Q (w : World) {A : Type} (c : call A) :
  (forall reply, Q (Called c reply) = true) -> emitsM Q (perform w c).
Proof.
  intros Hc s. rewrite perform_eq. eexists. cbn [fst history withHistory].
  split; [reflexivity|]. cbn [forallb]. by rewrite Hc.
Qed.

Lemma emitsM_bind Q {A B : Type} (m : M A) (k : A -> M B) :
  emitsM Q m -> (forall a, emitsM Q (k a)) -> emitsM Q (bind m k).
Proof.
  intros Hm Hk s. unfold bind. specialize (Hm s).
  destruct (m s) as [s1 [e|a]]; [done|].
  eapply emits_trans; [exact Hm|apply Hk].
Qed.

Lemma emitsM_tryCatch Q {A : Type} (body : M A) (h : error -> M A) :
  emitsM Q body -> (forall e, emitsM Q (h e)) -> emitsM Q (tryCatch body h).
Proof.
  intros Hb Hh s. unfold tryCatch. specialize (Hb s).
  destruct (body s) as [s1 [e|a]]; [|done].
  eapply emits_trans; [exact Hb|apply Hh].
Qed.

Lemma emitsM_tryFinally Q {A : Type} (body : M A) (cleanup : M unit) :
  emitsM Q body -> emitsM Q cleanup -> emitsM Q (tryFinally body cleanup).
Proof.
  intros Hb Hc s. unfold tryFinally. specialize (Hb s).
  destruct (body s) as [s1 r]. specialize (Hc s1).
  assert ((let (s'', y) := cleanup s1 in
           match y with inl e => (s'', inl e) | inr _ => (s'', r) end).1
          = (cleanup s1).1) as -> by (by destruct (cleanup s1) as [? [?|?]]).
  eapply emits_trans; [exact Hb|exact Hc].
Qed.

Lemma emitsM_swallow Q (m : M unit) : emitsM Q m -> emitsM Q (swallow m).
Proof. intros Hm s. unfold swallow. specialize (Hm s). by destruct (m s). Qed.

Lemma emitsM_runClaude Q (w : World) options :
  (forall reply, Q (Called (Spawn options) reply) = true) ->
  emitsM Q (runClaude w options).
Proof.
  intros Hq. unfold runClaude.
  apply emitsM_bind; [by apply emitsM_perform|intros p; apply emitsM_ret].
Qed.


(** Solves the side conditions of the rules: each call of the code at hand
    passes the test, whatever it answers. *)
Ltac emits_step :=
  first
    [ apply emitsM_ret | apply emitsM_throw | apply emitsM_get
    | apply emitsM_perform; intros ?; by vm_compute
    | apply emitsM_runClaude; intros ?; by vm_compute
    | apply emitsM_swallow
    | apply emitsM_bind; [|intros ?]
    | apply emitsM_tryCatch; [|intros ?]
    | apply emitsM_tryFinally ].

End RunLaws.

(** ** task-handler.ts: every run of [handle] *)

Module TaskHandlerLaws.
Import Js Types Claude DecisionPoints Run TaskHandler RunProofs RunLaws.
Local Open Scope run_scope.

Section Handler.
Variable w : World.
Variable config : Config.
Variable repoRoot : list N.

(** The [try] block of [handle]. *)
Definition tryBlock (issue : TrackedIssue) : M unit :=
  let* p := beforeAgent w repoRoot issue in
  let* result := runClaude w (agentOptions config repoRoot issue p) in
  afterAgent w repoRoot issue result.

Lemma handle_tryBlock issue :
  handle w config repoRoot issue
  = tryFinally (tryCatch (tryBlock issue) (reportFailure w issue))
      (swallow (removeWorktree w repoRoot (worktreeOf repoRoot issue))).
Proof. reflexivity. Qed.

Definition discardCall (issue : TrackedIssue) : call unit :=
  ExecFile GIT [js "worktree"; js "remove"; worktreeOf repoRoot issue;
                js "--force"] repoRoot.

(** How [handle] ends, by the outcome of its [try] block. *)
Lemma handle_ending issue s :
  match tryBlock issue s with
  | (s1, inl e) =>
      exists r1 r2 r3 r4,
        handle w config repoRoot issue s
        = (withHistory
             (history s1 ++
              [Called (RemoveLabel (number issue) LABELS_inProgress) r1;
               Called (AddLabel (number issue) LABELS_failed) r2;
               Called (PostComment (number issue) (ImplementFailed e)) r3;
               Called (discardCall issue) r4]) s1,
           inr tt)
  | (s1, inr _) =>
      exists r4,
        handle w config repoRoot issue s
        = (withHistory (history s1 ++ [Called (discardCall issue) r4]) s1, inr tt)
  end.
Proof.
  rewrite handle_tryBlock. unfold tryFinally, tryCatch.
  destruct (tryBlock issue s) as [s1 [e|[]]].
  - unfold reportFailure, removeWorktree, discardCall. run_simpl.
    rewrite <- !app_assoc. cbn [app]. do 4 eexists. reflexivity.
  - unfold removeWorktree, discardCall. run_simpl. eexists. reflexivity.
Qed.

(** What the [try] block never does: discard the workspace, add the failure
    label, or post an error comment. *)
Definition orderly (n : Z) (e : event) : bool :=
  negb (isDiscard e || isAddLabel n LABELS_failed e || isErrorComment n e).

Lemma tryBlock_orderly issue : emitsM (orderly (number issue)) (tryBlock issue).
Proof.
  unfold tryBlock, beforeAgent, createWorktree, buildPrompt, afterAgent, gitPush.
  repeat emits_step.
  destruct (exitCode _ =? 0)%Z; repeat emits_step.
Qed.

End Handler.

Lemma orderly_counts n e :
  orderly n e = true ->
  isDiscard e = false /\ isAddLabel n LABELS_failed e = false
  /\ isErrorComment n e = false.
Proof. unfold orderly. rewrite negb_true_iff, !orb_false_iff. tauto. Qed.

(** X14. Every run of the Implement handler resolves, whatever fails. The
    workspace is discarded exactly once, as the last call of the run. When
    the [try] block throws, at any step, the run removes the in-progress
    label, adds the failure label once and posts one error comment carrying
    that error, each attempted whatever the one before answered; when the
    [try] block completes, no failure label is added and no error comment
    posted. The handler never touches the pool or the poller's timestamp. *)
Theorem implement_reports_every_failure_and_always_discards
    (w : World) (config : Config) (repoRoot : list N) (issue : TrackedIssue)
    (s : process) :
  let s' := (handle w config repoRoot issue s).1 in
  let run := eventsSince s s' in
  let n := number issue in
  (handle w config repoRoot issue s).2 = inr tt
  /\ count isDiscard run = 1
  /\ (exists r, last (history s') = Some (Called (discardCall repoRoot issue) r))
  /\ match tryBlock w config repoRoot issue s with
     | (s1, inl e) =>
         count (isAddLabel n LABELS_failed) run = 1
         /\ count (isErrorComment n) run = 1
         /\ exists r1 r2 r3 r4,
              history s'
              = history s1 ++
                [Called (RemoveLabel n LABELS_inProgress) r1;
                 Called (AddLabel n LABELS_failed) r2;
                 Called (PostComment n (ImplementFailed e)) r3;
                 Called (discardCall repoRoot issue) r4]
     | (s1, inr _) =>
         count (isAddLabel n LABELS_failed) run = 0
         /\ count (isErrorComment n) run = 0
     end
  /\ workerPool s' = workerPool s /\ lastPollTime s' = lastPollTime s.
Proof.
  intros s' run n. subst s' run.
  pose proof (handle_ending w config repoRoot issue s) as Hend.
  pose proof (tryBlock_orderly w config repoRoot issue s)
    as (tr & Hh & Hq & Hp & Ht).
  assert (Hc : count isDiscard tr = 0
               /\ count (isAddLabel n LABELS_failed) tr = 0
               /\ count (isErrorComment n) tr = 0).
  { repeat split; apply (count_none _ (orderly n)); try done;
      intros e He; by apply orderly_counts in He as (? & ? & ?). }
  destruct Hc as (C1 & C2 & C3).
  destruct (tryBlock w config repoRoot issue s) as [s1 [e|[]]]; cbn [fst] in *.
  - destruct Hend as (r1 & r2 & r3 & r4 & ->). cbn [fst snd].
    unfold eventsSince. cbn [history withHistory workerPool lastPollTime].
    rewrite Hh, <- !app_assoc, drop_app_length, !count_app, C1, C2, C3.
    split; [done|]. split; [by vm_compute|]. split.
    { exists r4. rewrite app_assoc.
      by rewrite (last_app _ [_; _; _; _]). }
    split; [|done]. unfold count.
    cbn [List.filter isAddLabel isErrorComment].
    subst n. rewrite !(bool_decide_eq_true_2 (number issue = number issue)) by done.
    split; [by vm_compute|]. split; [by vm_compute|].
    exists r1, r2, r3, r4. by rewrite <- !app_assoc.
  - destruct Hend as (r4 & ->). cbn [fst snd].
    unfold eventsSince. cbn [history withHistory workerPool lastPollTime].
    rewrite Hh, <- !app_assoc, drop_app_length, !count_app, C1, C2, C3.
    split; [done|]. split; [by vm_compute|]. split.
    { exists r4. rewrite app_assoc. by rewrite last_snoc. }
    split; [|done]. split; by vm_compute.
Qed.

(** Before the agent runs, nothing is published and no change request is
    created. *)
Definition unpublished (e : event) : bool :=
  negb (isPush e || isCreatePullRequest e || isSpawn e).

Lemma beforeAgent_unpublished (w : World) repoRoot issue :
  emitsM unpublished (beforeAgent w repoRoot issue).
Proof.
  unfold beforeAgent, createWorktree, buildPrompt. repeat emits_step.
Qed.

(** A call that was answered without an error. *)
Definition succeeded (e : event) : bool :=
  match e with
  | Called _ (inr _) => true
  | Called _ (inl _) => false
  | Read _ _ => true
  end.

(** A publish that was made and succeeded. *)
Definition isPushDone (e : event) : bool := isPush e && succeeded e.

Lemma unpublished_facts e :
  unpublished e = true ->
  isPush e = false /\ isCreatePullRequest e = false /\ isPushDone e = false
  /\ ReviewHandlerProofs.notSpawn e = true.
Proof.
  unfold unpublished, ReviewHandlerProofs.notSpawn.
  rewrite negb_true_iff, !orb_false_iff. intros [[Hp Hc] ->].
  split; [done|]. split; [done|]. split; [|done].
  unfold isPushDone. by rewrite Hp.
Qed.

(** Takes the call a run is waiting on, in both of its outcomes. *)
Ltac run_case :=
  match goal with
  | |- context [match answer ?w ?A ?h ?c with inl _ => _ | inr _ => _ end] =>
      let r := fresh "r" in
      let Hr := fresh "Hr" in
      destruct (answer w A h c) as [r|r] eqn:Hr; cbv beta iota
  end.

(** Forgets what the calls still open answered: their answers play no part. *)
Ltac forget_answers :=
  repeat match goal with
         | |- context [answer ?w ?A ?h ?c] =>
             let r := fresh "r" in generalize (answer w A h c); intros r
         end.

(** X15. The Implement handler publishes only what a successful agent run
    produced: in every run there is at most one [git push] and it happens
    only after the agent resolved with exit code 0; at most one change
    request is created, and only after a push that succeeded. *)
Theorem implement_publishes_only_after_agent_success
    (w : World) (config : Config) (repoRoot : list N) (issue : TrackedIssue)
    (s : process) :
  let run := eventsSince s (handle w config repoRoot issue s).1 in
  count isPush run <= 1
  /\ count isCreatePullRequest run <= 1
  /\ (count isPush run = 1 ->
      exists result, ReviewHandler.agentResult run = Some result
                     /\ exitCode result = 0%Z)
  /\ (count isCreatePullRequest run = 1 -> count isPushDone run = 1).
Proof.
  intros run. subst run.
  destruct (handle w config repoRoot issue s) as [s' res] eqn:Hrun.
  cbn [fst]. revert Hrun. unfold handle, tryFinally, tryCatch.
  unfold bind at 1.
  pose proof (beforeAgent_unpublished w repoRoot issue s)
    as (tr & Hh & Hq & _).
  assert (Hc : count isPush tr = 0 /\ count isCreatePullRequest tr = 0
               /\ count isPushDone tr = 0
               /\ forallb ReviewHandlerProofs.notSpawn tr = true).
  { repeat split;
      try (apply (count_none _ unpublished); [|done];
           intros e He; by apply unpublished_facts in He as (? & ? & ? & ?)).
    apply forallb_forall. intros e He.
    rewrite forallb_forall in Hq. specialize (Hq e He).
    by apply unpublished_facts in Hq as (? & ? & ? & ?). }
  destruct Hc as (C1 & C2 & C3 & C4).
  destruct (beforeAgent w repoRoot issue s) as [s1 [e|p]]; cbn [fst] in Hh;
    unfold runClaude, afterAgent, gitPush, reportFailure, removeWorktree;
    run_simpl;
    repeat first
      [ run_case
      | match goal with
        | |- context [(?x =? 0)%Z] => destruct (x =? 0)%Z eqn:?
        end ];
    intros [= <- <-];
    forget_answers;
    unfold eventsSince; cbn [history];
    rewrite <- ?app_assoc; cbn [app];
    rewrite Hh, <- ?app_assoc, drop_app_length;
    rewrite ReviewHandlerProofs.agentResult_quiet_l by done;
    rewrite !count_app, C1, C2, C3;
    (split; [by vm_compute; lia|]);
    (split; [by vm_compute; lia|]);
    (split; [|by vm_compute]);
    try (by vm_compute);
    intros _; eexists; (split; [reflexivity|]);
    cbn [exitCode]; by apply Z.eqb_eq.
Qed.

(** Takes the call a run is waiting on, in a world where no call fails. *)
Ltac run_ok Hall :=
  repeat match goal with
         | |- context [match answer ?w ?A ?h ?c with inl _ => _ | inr _ => _ end] =>
             let a := fresh "a" in
             let Ha := fresh "Ha" in
             destruct (Hall A h c) as [a Ha]; rewrite Ha; cbv beta iota
         end.



End TaskHandlerLaws.

(** ** review-handler.ts: every run of [handle] *)

Module ReviewHandlerLaws.
Import Js Types Claude Run ReviewHandler RunProofs RunLaws.
Import TaskHandler(count, eventsSince, isDiscard, isPush, isErrorComment,
                   isCreatePullRequest).
Local Open Scope run_scope.


Section Handler.
Variable w : World.
Variable config : Config.
Variable repoRoot : list N.

Definition discardCall (prNumber : Z) : call unit :=
  ExecFile GIT [js "worktree"; js "remove"; worktreeOf repoRoot prNumber;
                js "--force"] repoRoot.

(** How [handle] ends once the branch is known, by the outcome of its [try]
    block. *)
Lemma review_handle_ending prNumber comments s :
  match answer w _ (history s) (GetPRBranch prNumber) with
  | inl e =>
      handle w config repoRoot prNumber comments s
      = (withHistory (history s ++ [Called (GetPRBranch prNumber) (inl e)]) s,
         inl e)
  | inr branchName =>
      let s0 := withHistory
                  (history s ++ [Called (GetPRBranch prNumber) (inr branchName)]) s in
      match review w config repoRoot prNumber comments branchName s0 with
      | (s1, inl e) =>
          exists r1 r2,
            handle w config repoRoot prNumber comments s
            = (withHistory
                 (history s1 ++
                  [Called (PostComment prNumber (ReviewFailed e)) r1;
                   Called (discardCall prNumber) r2]) s1,
               inr tt)
      | (s1, inr _) =>
          exists r2,
            handle w config repoRoot prNumber comments s
            = (withHistory (history s1 ++ [Called (discardCall prNumber) r2]) s1,
               inr tt)
      end
  end.
Proof.
  unfold handle. unfold bind at 1 2 3. rewrite perform_eq.
  destruct (answer w _ (history s) (GetPRBranch prNumber)) as [e|branchName];
    [done|].
  cbv zeta. unfold tryFinally, tryCatch.
  destruct (review w config repoRoot prNumber comments branchName _)
    as [s1 [e|[]]].
  - unfold removeWorktree, discardCall. run_simpl.
    rewrite <- !app_assoc. cbn [app]. do 2 eexists. reflexivity.
  - unfold removeWorktree, discardCall. run_simpl. eexists. reflexivity.
Qed.

(** What the [try] block of a review never does: discard the workspace or
    post an error comment. *)
Definition orderly (n : Z) (e : event) : bool :=
  negb (isDiscard e || isErrorComment n e).

Lemma saveSession_emits Q prNumber result : emitsM Q (saveSession prNumber result).
Proof.
  unfold saveSession. destruct (sessionId result) as [sid|]; [|apply emitsM_ret].
  destruct (truthy sid); [|apply emitsM_ret].
  intros s. exists []. cbn. by rewrite app_nil_r.
Qed.

Lemma review_orderly prNumber comments branchName :
  emitsM (orderly prNumber)
    (review w config repoRoot prNumber comments branchName).
Proof.
  unfold review, createWorktree. repeat emits_step.
  - apply saveSession_emits.
  - destruct (exitCode _ =? 0)%Z; repeat emits_step.
Qed.



(** The calls of a review in which nothing fails. *)
Lemma review_success_calls prNumber comments s :
  neverFails w -> agentSucceeds w ->
  let dir := worktreeOf repoRoot prNumber in
  exists (branch : list N) (p : processExit),
    answer w _ (history s) (GetPRBranch prNumber) = inr branch
    /\ ReviewHandler.agentResult
         (eventsSince s (handle w config repoRoot prNumber comments s).1)
       = Some (resultOf p)
    /\ callsOf (eventsSince s (handle w config repoRoot prNumber comments s).1)
       = [ AnyCall (GetPRBranch prNumber);
           AnyCall (ExecFile GIT [js "fetch"; js "origin"; branch] repoRoot);
           AnyCall (ExecFile GIT
                      [js "worktree"; js "add"; dir; js "origin/" ++ branch]
                      repoRoot);
           AnyCall (ExecFile GIT
                      [js "checkout"; js "-B"; branch; js "origin/" ++ branch] dir);
           AnyCall (PostComment prNumber (ReviewStarted (length comments)));
           AnyCall (Spawn {| optPrompt := ReviewPrompt comments; cwd := dir;
                             resumeSessionId := sessionStore s !! prNumber;
                             allowedTools := toolsOption config |});
           AnyCall (ExecFile GIT [js "push"; js "origin"; branch] dir);
           AnyCall (PostComment prNumber ReviewPushed);
           AnyCall (ExecFile GIT [js "worktree"; js "remove"; dir; js "--force"]
                      repoRoot) ].
Proof.
  intros Hall Hexit dir. subst dir.
  destruct (handle w config repoRoot prNumber comments s) as [s' res] eqn:Hrun.
  cbn [fst]. revert Hrun.
  unfold handle, review, createWorktree, buildPrompt, runClaude, saveSession,
    removeWorktree.
  run_simpl.
  repeat match goal with
         | |- context [match answer ?w ?A ?h ?c with inl _ => _ | inr _ => _ end] =>
             let a := fresh "a" in
             let Ha := fresh "Ha" in
             destruct (Hall A h c) as [a Ha];
             rewrite Ha; cbv beta iota;
             try (rewrite (Hexit _ _ _ Ha);
                  cbv beta iota delta [from_option Datatypes.id exitCode Z.eqb])
         end.
  cbn [sessionId].
  match goal with
  | Hs : answer _ processExit _ (Spawn _) = inr ?p |- _ =>
      destruct (extractSessionId JSON_parse (out p)) as [sid|] eqn:Hsid;
        [destruct (truthy sid)|]
  end;
    run_simpl; cbn [exitCode Z.eqb];
    repeat match goal with
           | |- context [match answer ?w ?A ?h ?c with inl _ => _ | inr _ => _ end] =>
               let a := fresh "a" in
               let Ha := fresh "Ha" in
               destruct (Hall A h c) as [a Ha]; rewrite Ha; cbv beta iota
           end;
    intros [= <- <-]; TaskHandlerLaws.forget_answers;
    unfold eventsSince; cbn [history]; rewrite <- ?app_assoc; cbn [app];
    rewrite drop_app_length; cbn [callsOf omap list_omap ReviewHandler.agentResult];
    match goal with
    | Hb : answer _ _ _ (GetPRBranch _) = inr ?b,
      Hs : answer _ processExit _ (Spawn _) = inr ?p |- _ =>
        exists b, p; unfold resultOf; rewrite (Hexit _ _ _ Hs)
    end;
    by rewrite ?Hsid.
Qed.

End Handler.

Lemma review_orderly_counts n e :
  orderly n e = true -> isDiscard e = false /\ isErrorComment n e = false.
Proof. unfold orderly. rewrite negb_true_iff, !orb_false_iff. tauto. Qed.

(** X17. A Review run rejects only when the branch of the change request
    cannot be resolved, and then nothing else is called: no workspace is
    created and none is discarded. Once the branch is known the run always
    resolves, the workspace is discarded exactly once, as the last call, and
    a failure of the [try] block, at any step, is reported by exactly one
    error comment carrying that error; a [try] block that completes posts
    none. *)
Theorem review_rejects_only_when_branch_lookup_fails
    (w : World) (config : Config) (repoRoot : list N) (prNumber : Z)
    (comments : list ReviewComment) (s : process) :
  let s' := (handle w config repoRoot prNumber comments s).1 in
  let run := eventsSince s s' in
  match answer w _ (history s) (GetPRBranch prNumber) with
  | inl e =>
      (handle w config repoRoot prNumber comments s).2 = inl e
      /\ run = [Called (GetPRBranch prNumber) (inl e)]
  | inr branchName =>
      (handle w config repoRoot prNumber comments s).2 = inr tt
      /\ count isDiscard run = 1
      /\ (exists r, last (history s')
                    = Some (Called (discardCall repoRoot prNumber) r))
      /\ match
           (review w config repoRoot prNumber comments branchName
              (withHistory
                 (history s ++ [Called (GetPRBranch prNumber) (inr branchName)])
                 s)).2
         with
         | inl e =>
             count (isErrorComment prNumber) run = 1
             /\ exists r, Called (PostComment prNumber (ReviewFailed e)) r ∈ run
         | inr _ => count (isErrorComment prNumber) run = 0
         end
  end.
Proof.
  intros s' run. subst s' run.
  pose proof (review_handle_ending w config repoRoot prNumber comments s) as Hend.
  destruct (answer w _ (history s) (GetPRBranch prNumber)) as [e|branchName].
  - rewrite Hend. cbn [fst snd]. split; [done|].
    unfold eventsSince. cbn [history withHistory]. by rewrite drop_app_length.
  - cbv zeta in Hend.
    pose proof (review_orderly w config repoRoot prNumber comments branchName
                  (withHistory
                     (history s ++ [Called (GetPRBranch prNumber) (inr branchName)])
                     s)) as (tr & Hh & Hq & _).
    assert (Hc : count isDiscard tr = 0 /\ count (isErrorComment prNumber) tr = 0).
    { split; apply (count_none _ (orderly prNumber)); try done;
        intros e He; by apply review_orderly_counts in He as [? ?]. }
    destruct Hc as [C1 C2]. cbn [history withHistory] in Hh.
    destruct (review w config repoRoot prNumber comments branchName _)
      as [s1 [e|[]]]; cbn [fst snd] in *.
    + destruct Hend as (r1 & r2 & ->). cbn [fst snd].
      unfold eventsSince. cbn [history withHistory].
      rewrite Hh, <- !app_assoc, drop_app_length.
      rewrite !count_app, C1, C2.
      split; [done|]. split; [by vm_compute|]. split.
      { exists r2. rewrite !app_assoc.
        by rewrite (last_app _ [_; _]). }
      unfold count. cbn [List.filter isErrorComment].
      rewrite !(bool_decide_eq_true_2 (prNumber = prNumber)) by done.
      split; [by vm_compute|]. exists r1.
      rewrite !elem_of_app, !elem_of_cons. right. right. by left.
    + destruct Hend as (r2 & ->). cbn [fst snd].
      unfold eventsSince. cbn [history withHistory].
      rewrite Hh, <- !app_assoc, drop_app_length.
      rewrite !count_app, C1, C2.
      split; [done|]. split; [by vm_compute|]. split.
      { exists r2. rewrite !app_assoc. by rewrite last_snoc. }
      by vm_compute.
Qed.


(** X19. When no call fails and the agent exits with code 0, a Review run
    makes exactly these calls, in this order; the branch the tracker names
    goes unchanged into the fetch, the worktree, the checkout and the push,
    and the agent is resumed with the token stored for the change request,
    if there is one. *)
Theorem review_success_call_order
    (w : World) (config : Config) (repoRoot : list N) (prNumber : Z)
    (comments : list ReviewComment) (s : process) :
  neverFails w -> agentSucceeds w ->
  let dir := worktreeOf repoRoot prNumber in
  exists (branch : list N),
    answer w _ (history s) (GetPRBranch prNumber) = inr branch
    /\ callsOf (eventsSince s (handle w config repoRoot prNumber comments s).1)
       = [ AnyCall (GetPRBranch prNumber);
           AnyCall (ExecFile GIT [js "fetch"; js "origin"; branch] repoRoot);
           AnyCall (ExecFile GIT
                      [js "worktree"; js "add"; dir; js "origin/" ++ branch]
                      repoRoot);
           AnyCall (ExecFile GIT
                      [js "checkout"; js "-B"; branch; js "origin/" ++ branch] dir);
           AnyCall (PostComment prNumber (ReviewStarted (length comments)));
           AnyCall (Spawn {| optPrompt := ReviewPrompt comments; cwd := dir;
                             resumeSessionId := sessionStore s !! prNumber;
                             allowedTools := toolsOption config |});
           AnyCall (ExecFile GIT [js "push"; js "origin"; branch] dir);
           AnyCall (PostComment prNumber ReviewPushed);
           AnyCall (ExecFile GIT [js "worktree"; js "remove"; dir; js "--force"]
                      repoRoot) ].
Proof.
  intros Hall Hexit dir.
  destruct (review_success_calls w config repoRoot prNumber comments s Hall Hexit)
    as (branch & p & Hb & _ & Hcalls).
  by exists branch.
Qed.

Lemma review_success_call_order_witness :
  length (callsOf (eventsSince Scenarios.withStoredToken
                     (handle Scenarios.quietWorld Scenarios.noTools Scenarios.root
                        7 [] Scenarios.withStoredToken).1)) = 9.
Proof.
  destruct (review_success_call_order Scenarios.quietWorld Scenarios.noTools
              Scenarios.root 7 [] Scenarios.withStoredToken)
    as (branch & _ & ->).
  - intros A h c. by eexists.
  - intros h options p. by intros [= <-].
  - reflexivity.
Defined.

End ReviewHandlerLaws.

(** ** Two review rounds, and the session they share *)

Module ReviewRounds.
Import Js Types Claude Run ReviewHandler RunProofs RunLaws ReviewHandlerLaws.
Import TaskHandler(eventsSince).

(** Every call succeeds, and the agent exits with code 0 and reports the
    session id ["s2"]. *)
Definition cooperative : World :=
  {| answer := fun A _ c =>
       match c in call T return error + T with
       | Spawn _ =>
           inr {| code := Some 0%Z; out := quoted "{'session_id':'s2'}";
                  err := [] |}
       | c' => inr (Scenarios.succeed c')
       end;
     time := fun A _ q => Scenarios.epoch q |}.

(** X20. The session store links the review rounds of a change request:
    when nothing fails and the agent of one round reports a non-empty
    session id, the agent of the next round on the same change request is
    resumed with exactly that session id. *)
Theorem next_review_round_resumes_reported_session
    (w : World) (config : Config) (repoRoot : list N) (prNumber : Z)
    (comments1 comments2 : list ReviewComment) (s : process) :
  neverFails w -> agentSucceeds w ->
  let s1 := (handle w config repoRoot prNumber comments1 s).1 in
  let s2 := (handle w config repoRoot prNumber comments2 s1).1 in
  exists p,
    agentResult (eventsSince s s1) = Some (resultOf p)
    /\ forall sid,
         sessionId (resultOf p) = Some sid -> sid <> [] ->
         AnyCall (Spawn {| optPrompt := ReviewPrompt comments2;
                           cwd := worktreeOf repoRoot prNumber;
                           resumeSessionId := Some sid;
                           allowedTools := toolsOption config |})
         ∈ callsOf (eventsSince s1 s2).
Proof.
  intros Hall Hexit s1 s2.
  destruct (review_success_calls w config repoRoot prNumber comments1 s Hall Hexit)
    as (branch1 & p & _ & Hagent & _).
  fold s1 in Hagent. exists p. split; [done|].
  intros sid Hsid Hne.
  destruct (ReviewHandlerProofs.handle_tracked w config repoRoot prNumber comments1 s)
    as (tr & Hh & Hstore).
  fold s1 in Hh, Hstore.
  assert (Htr : eventsSince s s1 = tr).
  { unfold eventsSince. by rewrite Hh, drop_app_length. }
  rewrite Htr in Hagent. rewrite Hagent in Hstore. unfold storeAfter in Hstore.
  rewrite Hsid in Hstore.
  assert (truthy sid = true) as Htruthy by (by destruct sid).
  rewrite Htruthy in Hstore.
  destruct (review_success_calls w config repoRoot prNumber comments2 s1 Hall Hexit)
    as (branch2 & p2 & _ & _ & Hcalls).
  fold s2 in Hcalls. rewrite Hcalls, Hstore, lookup_insert_eq.
  do 5 right. left.
Qed.

Lemma next_review_round_resumes_reported_session_witness :
  let s1 := (handle cooperative Scenarios.noTools Scenarios.root 7 []
               Scenarios.fresh).1 in
  let s2 := (handle cooperative Scenarios.noTools Scenarios.root 7 [] s1).1 in
  AnyCall (Spawn {| optPrompt := ReviewPrompt [];
                    cwd := worktreeOf Scenarios.root 7;
                    resumeSessionId := Some (js "s2");
                    allowedTools := None |})
  ∈ callsOf (eventsSince s1 s2).
Proof.
  intros s1 s2.
  destruct (next_review_round_resumes_reported_session cooperative
              Scenarios.noTools Scenarios.root 7 [] [] Scenarios.fresh)
    as (p & Hagent & Hnext).
  - intros A h c. destruct c; by eexists.
  - intros h options p. by intros [= <-].
  - apply (Hnext (js "s2")); [|done].
    assert (Hrun : agentResult
                     (eventsSince Scenarios.fresh
                        (handle cooperative Scenarios.noTools Scenarios.root 7 []
                           Scenarios.fresh).1)
                   = Some {| exitCode := 0; stdout := quoted "{'session_id':'s2'}";
                             stderr := []; sessionId := Some (js "s2") |})
      by (by vm_compute).
    rewrite Hrun in Hagent. apply (inj Some) in Hagent. by rewrite <- Hagent.
Defined.

End ReviewRounds.

(** ** claude.ts: what the extracted session id is *)

Module ClaudeLaws.
Import Js Claude ClaudeProofs.

Section AnyParser.
Variable parse : list N -> option json.

Lemma scanBack_sound ls s :
  scanBack parse ls = Some s ->
  exists line, In line ls /\ lineSessionId parse line = Some s.
Proof.
  induction ls as [|l ls IH]; [done|].
  destruct (lineSessionId parse l) as [s'|] eqn:Hl.
  - rewrite (scanBack_found parse l ls s' Hl). intros [= <-].
    exists l. split; [by left|done].
  - rewrite scanBack_skip by done. intros (line & Hin & Hline)%IH.
    exists line. split; [by right|done].
Qed.

Lemma trimStart_blank s :
  forallb isWhiteSpace s = true -> trimStart s = [].
Proof.
  induction s as [|c s IH]; [done|]. simpl.
  intros [-> Hs]%andb_true_iff. by apply IH.
Qed.

Lemma split_no_separator sep s piece :
  In piece (split sep s) -> ~ In sep piece.
Proof.
  revert piece. induction s as [|c s IH]; intros piece; simpl.
  - intros [<-|[]]. by intros [].
  - destruct (c =? sep)%N eqn:Hc.
    + intros [<-|Hin]; [by intros []|by apply IH].
    + apply N.eqb_neq in Hc.
      destruct (split sep s) as [|w ws] eqn:Hsplit.
      * intros [<-|[]]. by intros [->|[]].
      * intros [<-|Hin].
        -- intros [->|Hin]; [done|]. apply (IH w); [by left|done].
        -- apply IH. by right.
Qed.

End AnyParser.

(** X21. The session id that extraction returns is never made up: it is the
    string [session_id] of one of the non-empty lines of the output; and
    when the last line carries one, that one is returned. *)
Theorem extractSessionId_returns_a_line_s_session_id
    (parse : list N -> option json) (stdout s : list N) :
  (extractSessionId parse stdout = Some s ->
   exists line, In line (outputLines stdout)
                /\ lineSessionId parse line = Some s)
  /\ (forall earlier lastLine,
        outputLines stdout = earlier ++ [lastLine] ->
        lineSessionId parse lastLine = Some s ->
        extractSessionId parse stdout = Some s).
Proof.
  split.
  - destruct (outputLines stdout) as [|l ls] eqn:Hlines using rev_ind.
    + unfold extractSessionId. by rewrite Hlines.
    + clear IHls. rewrite (extractSessionId_lines parse stdout ls l Hlines).
      destruct (parse l) as [v|] eqn:Hv; [|done].
      destruct (readSessionId v) as [| |s'] eqn:Hread; [done| |].
      * intros (line & Hin & Hline)%scanBack_sound.
        exists line. split; [|done]. apply in_or_app. left. by apply in_rev.
      * intros [= <-]. exists l. split; [apply in_or_app; right; by left|].
        unfold lineSessionId. by rewrite Hv, Hread.
  - intros earlier lastLine Hlines Hlast.
    rewrite (extractSessionId_lines parse stdout earlier lastLine Hlines).
    unfold lineSessionId in Hlast.
    destruct (parse lastLine) as [v|]; [|done].
    by destruct (readSessionId v).
Qed.

Lemma extractSessionId_returns_a_line_s_session_id_witness :
  exists line,
    In line (outputLines (unlines [quoted "{'session_id':'s1'}"; quoted "{'b':2}"]))
    /\ lineSessionId JSON_parse line = Some (js "s1").
Proof.
  apply (proj1 (extractSessionId_returns_a_line_s_session_id JSON_parse
                  (unlines [quoted "{'session_id':'s1'}"; quoted "{'b':2}"])
                  (js "s1"))).
  by vm_compute.
Defined.

(** X22. The lines that extraction reads are never empty and never contain
    a line feed; and an output that is empty or all white space has no lines,
    so that extraction returns none without parsing anything. *)
Theorem outputLines_are_non_empty_lines
    (parse : list N -> option json) (stdout : list N) :
  (forall line, In line (outputLines stdout) -> line <> [] /\ ~ In LF line)
  /\ (forallb isWhiteSpace stdout = true ->
      outputLines stdout = [] /\ extractSessionId parse stdout = None).
Proof.
  split.
  - intros line. unfold outputLines. rewrite List.filter_In.
    intros [Hin Htruthy]. split; [by destruct line|].
    by apply (split_no_separator LF (trim stdout)).
  - intros Hblank.
    assert (Hlines : outputLines stdout = []).
    { unfold outputLines, trim, trimEnd. by rewrite (trimStart_blank stdout) by done. }
    split; [done|]. unfold extractSessionId. by rewrite Hlines.
Qed.

Lemma outputLines_are_non_empty_lines_witness :
  extractSessionId JSON_parse (js "   ") = None.
Proof.
  by apply (proj2 (outputLines_are_non_empty_lines JSON_parse (js "   "))).
Defined.

End ClaudeLaws.

(** ** The matcher and the decision points: what a match is made of *)

Module RegexLaws.
Import Js Regex DecisionPoints.

Section Repeat.
Context {R : Type}.

Lemma one_inv a s (k : list N -> option R) x :
  one a s k = Some x ->
  exists c r, s = c :: r /\ atomMatches a c = true /\ k r = Some x.
Proof.
  destruct s as [|c r]; [done|]. simpl.
  destruct (atomMatches a c) eqn:Hc; [|done]. eauto.
Qed.

Lemma starGreedy_inv a s (k : list N -> option R) x :
  starGreedy a s k = Some x ->
  exists pre r, s = pre ++ r /\ forallb (atomMatches a) pre = true
                /\ k r = Some x.
Proof.
  induction s as [|c s IH]; simpl.
  - intros Hk. by exists [], [].
  - destruct (atomMatches a c) eqn:Hc; [|intros Hk; by exists [], (c :: s)].
    destruct (starGreedy a s k) as [y|] eqn:Hs.
    + intros [= <-]. destruct (IH eq_refl) as (pre & r & -> & Hpre & Hk).
      exists (c :: pre), r. simpl. by rewrite Hc.
    + intros Hk. by exists [], (c :: s).
Qed.

Lemma starLazy_inv a s (k : list N -> option R) x :
  starLazy a s k = Some x ->
  exists pre r, s = pre ++ r /\ forallb (atomMatches a) pre = true
                /\ k r = Some x.
Proof.
  induction s as [|c s IH]; simpl.
  - destruct (k []) eqn:Hk; [|done]. intros [= <-]. by exists [], [].
  - destruct (k (c :: s)) eqn:Hk.
    + intros [= <-]. by exists [], (c :: s).
    + destruct (atomMatches a c) eqn:Hc; [|done].
      intros (pre & r & -> & Hpre & Hkr)%IH.
      exists (c :: pre), r. simpl. by rewrite Hc.
Qed.

End Repeat.

Definition moved (st : mstate) (s : list N) : mstate :=
  {| input := s; groupStart := groupStart st; captured := captured st |}.

(** What a match of the items consumes, item by item. *)
Fixpoint matched (items : list item) (st st' : mstate) : Prop :=
  match items with
  | [] => st' = st
  | One a :: rest =>
      exists c r, input st = c :: r /\ atomMatches a c = true
                  /\ matched rest (moved st r) st'
  | Star a :: rest =>
      exists pre r, input st = pre ++ r /\ forallb (atomMatches a) pre = true
                    /\ matched rest (moved st r) st'
  | Plus a :: rest | PlusLazy a :: rest =>
      exists c pre r, input st = c :: pre ++ r
                      /\ forallb (atomMatches a) (c :: pre) = true
                      /\ matched rest (moved st r) st'
  | Open :: rest =>
      matched rest {| input := input st; groupStart := input st;
                      captured := captured st |} st'
  | Close :: rest =>
      matched rest
        {| input := input st; groupStart := groupStart st;
           captured :=
             take (length (groupStart st) - length (input st)) (groupStart st)
             :: captured st |} st'
  end.

Lemma run_sound items st st' : run items st = Some st' -> matched items st st'.
Proof.
  revert st. induction items as [|i items IH]; intros st.
  - by intros [= <-].
  - destruct i as [a|a|a|a| |]; cbn [run matched].
    + intros (c & r & Hs & Hc & Hk)%one_inv. exists c, r. auto.
    + intros (pre & r & Hs & Hpre & Hk)%starGreedy_inv. exists pre, r. auto.
    + intros (c & s1 & Hs & Hc & (pre & r & -> & Hpre & Hk)%starGreedy_inv)%one_inv.
      exists c, pre, r. simpl. rewrite Hc. auto.
    + intros (c & s1 & Hs & Hc & (pre & r & -> & Hpre & Hk)%starLazy_inv)%one_inv.
      exists c, pre, r. simpl. rewrite Hc. auto.
    + apply IH.
    + apply IH.
Qed.

Lemma matched_literal lits rest st st' :
  matched (List.map (fun c => One (Lit c)) lits ++ rest) st st' ->
  exists r, input st = lits ++ r /\ matched rest (moved st r) st'.
Proof.
  revert st. induction lits as [|l lits IH]; intros st; simpl.
  - intros Hm. exists (input st). split; [done|]. by destruct st.
  - intros (c & r & Hs & Hc%N.eqb_eq & (r' & Hr & Hm)%IH). subst c.
    exists r'. simpl in *. by rewrite Hs, Hr.
Qed.

Lemma take_captured (c : N) (x r : list N) :
  take (length (c :: x ++ r) - length r) (c :: x ++ r) = c :: x.
Proof.
  change (c :: x ++ r) with ((c :: x) ++ r).
  rewrite length_app, Nat.add_sub. by rewrite take_app_length.
Qed.

(** A text a group of [.] can capture: not empty, and free of line
    terminators. *)
Definition oneLine (x : list N) : Prop :=
  x <> [] /\ forallb (fun c => negb (isLineTerminator c)) x = true.

Definition blank (x : list N) : Prop := forallb isWhiteSpace x = true.

(** Where a decision point stands in a text: after the marker, the three
    fields, separated by bars, with white space around them at will. *)
Definition standsIn (dp : DecisionPoint) (text before after : list N) : Prop :=
  exists ws1 ws2 ws3 ws4 ws5,
    text = before ++ marker ++ ws1 ++ description dp ++ ws2 ++ [BAR] ++ ws3
           ++ chosen dp ++ ws4 ++ [BAR] ++ ws5 ++ rejected dp ++ after
    /\ blank ws1 /\ blank ws2 /\ blank ws3 /\ blank ws4 /\ blank ws5
    /\ oneLine (description dp) /\ oneLine (chosen dp) /\ oneLine (rejected dp).

Lemma run_pattern_sound s st' :
  run pattern {| input := s; groupStart := s; captured := [] |} = Some st' ->
  exists d c r,
    rev (captured st') = [d; c; r]
    /\ standsIn {| description := d; chosen := c; rejected := r |} s []
         (input st').
Proof.
  intros Hm%run_sound. unfold pattern in Hm.
  apply matched_literal in Hm as (r0 & Hs & Hm). cbn [input moved] in *.
  cbn [matched moved input groupStart captured] in Hm.
  destruct Hm as (ws1 & r1 & -> & Hws1 & d0 & d & r2 & -> & Hd &
                  ws2 & r3 & -> & Hws2 & b1 & r4 & -> & Hb1%N.eqb_eq &
                  ws3 & r5 & -> & Hws3 & c0 & c & r6 & -> & Hc &
                  ws4 & r7 & -> & Hws4 & b2 & r8 & -> & Hb2%N.eqb_eq &
                  ws5 & r9 & -> & Hws5 & e0 & e & r10 & -> & He & ->).
  cbn [input captured rev app] in *. subst.
  rewrite !take_captured.
  eexists _, _, _. split; [reflexivity|].
  exists ws1, ws2, ws3, ws4, ws5. cbn [description chosen rejected].
  split; [by rewrite <- ?app_assoc|].
  repeat split; done.
Qed.

Lemma standsIn_later dp text before after x :
  standsIn dp text before after -> standsIn dp (x ++ text) (x ++ before) after.
Proof.
  intros (ws1 & ws2 & ws3 & ws4 & ws5 & -> & H).
  exists ws1, ws2, ws3, ws4, ws5. split; [by rewrite <- app_assoc|done].
Qed.

Lemma standsIn_suffix dp text before after :
  standsIn dp text before after -> exists x, text = x ++ after.
Proof.
  intros (ws1 & ws2 & ws3 & ws4 & ws5 & -> & _).
  exists (before ++ marker ++ ws1 ++ description dp ++ ws2 ++ [BAR] ++ ws3
          ++ chosen dp ++ ws4 ++ [BAR] ++ ws5 ++ rejected dp).
  by rewrite <- !app_assoc.
Qed.

Lemma exec_sound s groups rest :
  exec pattern s = Some (groups, rest) ->
  exists d c r before,
    groups = [d; c; r]
    /\ standsIn {| description := d; chosen := c; rejected := r |} s before rest.
Proof.
  induction s as [|c0 s IH].
  - cbn [exec].
    destruct (run pattern _) as [st|] eqn:Hrun; [|done].
    intros [= <- <-].
    destruct (run_pattern_sound _ _ Hrun) as (d & c & r & Hg & Hin).
    exists d, c, r, []. done.
  - cbn [exec].
    destruct (run pattern _) as [st|] eqn:Hrun.
    + intros [= <- <-].
      destruct (run_pattern_sound _ _ Hrun) as (d & c & r & Hg & Hin).
      exists d, c, r, []. done.
    + intros (d & c & r & before & Hg & Hin)%IH.
      exists d, c, r, (c0 :: before). split; [done|].
      by apply (standsIn_later _ _ _ _ [c0]).
Qed.

Lemma execAll_sound fuel s groups :
  groups ∈ execAll fuel pattern s ->
  exists d c r before after,
    groups = [d; c; r]
    /\ standsIn {| description := d; chosen := c; rejected := r |} s before after.
Proof.
  revert s. induction fuel as [|fuel IH]; intros s; cbn [execAll].
  - by intros ?%elem_of_nil.
  - destruct (exec pattern s) as [[g rest]|] eqn:Hexec;
      [|by intros ?%elem_of_nil].
    apply exec_sound in Hexec as (d & c & r & before & -> & Hin).
    intros [->|Hlater]%elem_of_cons.
    + by exists d, c, r, before, rest.
    + apply IH in Hlater as (d' & c' & r' & before' & after' & -> & Hin').
      destruct (standsIn_suffix _ _ _ _ Hin) as [x ->].
      exists d', c', r', (x ++ before'), after'. split; [done|].
      by apply standsIn_later.
Qed.

Lemma extractDecisionPoints_sound output dp :
  dp ∈ extractDecisionPoints output ->
  exists before after, standsIn dp output before after.
Proof.
  unfold extractDecisionPoints.
  intros (groups & Hg & Hdp)%list_elem_of_omap.
  apply execAll_sound in Hg as (d & c & r & before & after & -> & Hin).
  injection Hdp as <-. eauto.
Qed.

(** *** The other way round: a well-formed occurrence is found *)

Section Complete.
Context {R : Type}.

Lemma starGreedy_complete a pre r (k : list N -> option R) x :
  forallb (atomMatches a) pre = true -> k r = Some x ->
  is_Some (starGreedy a (pre ++ r) k).
Proof.
  induction pre as [|c pre IH]; simpl.
  - intros _ Hk. destruct r as [|c r]; simpl; [by rewrite Hk|].
    destruct (atomMatches a c); [|by rewrite Hk].
    destruct (starGreedy a r k); [done|by rewrite Hk].
  - intros [Hc Hpre]%andb_prop Hk. rewrite Hc.
    destruct (IH Hpre Hk) as [y ->]. done.
Qed.

Lemma starLazy_complete a pre r (k : list N -> option R) x :
  forallb (atomMatches a) pre = true -> k r = Some x ->
  is_Some (starLazy a (pre ++ r) k).
Proof.
  induction pre as [|c pre IH]; simpl.
  - intros _ Hk. destruct r; simpl; by rewrite Hk.
  - intros [Hc Hpre]%andb_prop Hk.
    destruct (k (c :: pre ++ r)); [done|]. rewrite Hc. by apply IH.
Qed.

End Complete.

Lemma run_complete items st st' :
  matched items st st' -> is_Some (run items st).
Proof.
  revert st. induction items as [|i items IH]; intros st.
  - done.
  - destruct i as [a|a|a|a| |]; cbn [run matched].
    + intros (c & r & -> & Hc & Hm). simpl. rewrite Hc. by apply IH.
    + intros (pre & r & -> & Hpre & Hm).
      destruct (IH _ Hm) as [y Hy].
      by apply (starGreedy_complete _ _ _ _ y).
    + intros (c & pre & r & -> & [Hc Hpre]%andb_prop & Hm).
      simpl. rewrite Hc. destruct (IH _ Hm) as [y Hy].
      by apply (starGreedy_complete _ _ _ _ y).
    + intros (c & pre & r & -> & [Hc Hpre]%andb_prop & Hm).
      simpl. rewrite Hc. destruct (IH _ Hm) as [y Hy].
      by apply (starLazy_complete _ _ _ _ y).
    + apply IH.
    + apply IH.
Qed.

Lemma literal_matched lits rest st r st' :
  input st = lits ++ r -> matched rest (moved st r) st' ->
  matched (List.map (fun c => One (Lit c)) lits ++ rest) st st'.
Proof.
  revert st. induction lits as [|l lits IH]; intros st; simpl.
  - intros Hs Hm. destruct st; simpl in *. by subst.
  - intros Hs Hm. exists l, (lits ++ r). split; [done|].
    split; [apply N.eqb_refl|]. by apply IH.
Qed.

Lemma oneLine_cons x :
  oneLine x ->
  exists c y, x = c :: y /\ forallb (atomMatches Dot) (c :: y) = true.
Proof. intros [Hne Hx]. destruct x as [|c y]; [done|]. by exists c, y. Qed.

Lemma run_pattern_complete dp after :
  forall ws1 ws2 ws3 ws4 ws5,
  blank ws1 -> blank ws2 -> blank ws3 -> blank ws4 -> blank ws5 ->
  oneLine (description dp) -> oneLine (chosen dp) -> oneLine (rejected dp) ->
  let s := marker ++ ws1 ++ description dp ++ ws2 ++ [BAR] ++ ws3
           ++ chosen dp ++ ws4 ++ [BAR] ++ ws5 ++ rejected dp ++ after in
  is_Some (run pattern {| input := s; groupStart := s; captured := [] |}).
Proof.
  intros ws1 ws2 ws3 ws4 ws5 H1 H2 H3 H4 H5
    (d0 & d & -> & Hd)%oneLine_cons (c0 & c & -> & Hc)%oneLine_cons
    (e0 & e & -> & He)%oneLine_cons s.
  eapply run_complete. unfold pattern.
  eapply literal_matched; [reflexivity|].
  cbn [matched moved input groupStart captured].
  eexists ws1, _. split; [reflexivity|]. split; [done|].
  eexists d0, d, _. split; [reflexivity|]. split; [done|].
  eexists ws2, _. split; [reflexivity|]. split; [done|].
  eexists BAR, _. split; [reflexivity|]. split; [done|].
  eexists ws3, _. split; [reflexivity|]. split; [done|].
  eexists c0, c, _. split; [reflexivity|]. split; [done|].
  eexists ws4, _. split; [reflexivity|]. split; [done|].
  eexists BAR, _. split; [reflexivity|]. split; [done|].
  eexists ws5, _. split; [reflexivity|]. split; [done|].
  eexists e0, e, _. split; [reflexivity|]. split; [done|].
  reflexivity.
Qed.

Lemma exec_of_run items s :
  is_Some (run items {| input := s; groupStart := s; captured := [] |}) ->
  is_Some (exec items s).
Proof. intros [st Hst]. destruct s; cbn [exec]; by rewrite Hst. Qed.

Lemma exec_later items x s : is_Some (exec items s) -> is_Some (exec items (x ++ s)).
Proof.
  intros Hs. induction x as [|c x IH]; [done|].
  change ((c :: x) ++ s) with (c :: (x ++ s)). cbn [exec].
  by destruct (run items _).
Qed.

Lemma exec_complete dp s before after :
  standsIn dp s before after -> is_Some (exec pattern s).
Proof.
  intros (ws1 & ws2 & ws3 & ws4 & ws5 & -> & H1 & H2 & H3 & H4 & H5 & Hd & Hc & Hr).
  apply exec_later, exec_of_run.
  by apply (run_pattern_complete dp after ws1 ws2 ws3 ws4 ws5).
Qed.

Lemma extractDecisionPoints_complete output dp before after :
  standsIn dp output before after -> extractDecisionPoints output <> [].
Proof.
  intros [[groups rest] Hexec]%exec_complete.
  unfold extractDecisionPoints. cbn [execAll]. rewrite Hexec.
  destruct (exec_sound _ _ _ Hexec) as (d & c & r & b & -> & _).
  done.
Qed.

(** X23. Every record that [extractDecisionPoints] returns stands in the
    output: the output holds the marker [[DECISION_POINT]], then the
    record's description, a bar, its chosen option, a bar and its rejected
    option, with nothing but white space between the fields and the marker
    or the bars; no field is empty and no field holds a line terminator. *)
Theorem decision_points_stand_in_the_output output dp :
  dp ∈ extractDecisionPoints output ->
  exists before after, standsIn dp output before after.
Proof. apply extractDecisionPoints_sound. Qed.

Lemma decision_points_stand_in_the_output_witness :
  let output := js "done
[DECISION_POINT] cache | redis | memcached
bye" in
  let dp := {| description := js "cache"; chosen := js "redis";
               rejected := js "memcached" |} in
  dp ∈ extractDecisionPoints output
  /\ exists before after, standsIn dp output before after.
Proof.
  intros output dp.
  assert (Hin : dp ∈ extractDecisionPoints output)
    by (vm_compute; apply elem_of_cons; by left).
  split; [exact Hin|].
  exact (decision_points_stand_in_the_output output dp Hin).
Defined.

(** X24. [extractDecisionPoints] returns no record exactly when no
    well-formed decision point stands anywhere in the output: one such
    occurrence is enough for the result to be non-empty, wherever it is and
    whatever surrounds it. *)
Theorem no_decision_points_iff_none_stands_in_the_output output :
  extractDecisionPoints output = []
  <-> (forall dp before after, ~ standsIn dp output before after).
Proof.
  split.
  - intros Hnone dp before after Hin.
    by apply (extractDecisionPoints_complete _ _ _ _ Hin).
  - intros Hnone.
    destruct (extractDecisionPoints output) as [|dp l] eqn:Hout; [done|].
    destruct (extractDecisionPoints_sound output dp) as (b & a & Hin).
    { rewrite Hout. apply elem_of_cons; by left. }
    by destruct (Hnone dp b a).
Qed.

End RegexLaws.

(** ** config.ts: the configuration read from the environment *)

Module ConfigLoader.
Import Js Types Run.

(** [process.env]: the variables that are set, each with its text. *)
Abbreviation env := (gmap (list N) (list N)) (only parsing).

Definition SLASH : N := 47.
Definition COMMA : N := 44.

(** The message of the Error of [requireEnv], around the variable's name. *)
Definition notSet (name : jsstring) : jsstring :=
  [29872; 22659; 22793; 25968; 32]%N ++ name
  ++ [32; 12364; 35373; 23450; 12373; 12428; 12390; 12356; 12414; 12379;
      12435]%N.

(** The message of the Error of [loadConfig] on a malformed [GITHUB_REPO]. *)
Definition badRepo : jsstring :=
  js "GITHUB_REPO " ++ [12399; 32]%N ++ js "'owner/repo' "
  ++ [24418; 24335; 12391; 25351; 23450; 12375; 12390; 12367; 12384; 12373;
      12356]%N.

(** [requireEnv(name)]: the variable's text; an Error when the variable is
    not set or is empty. *)
Definition requireEnv (e : env) (name : jsstring) : error + jsstring :=
  match e !! name with
  | Some value => if truthy value then inr value else inl (Thrown (notSet name))
  | None => inl (Thrown (notSet name))
  end.

(** [process.env[name] ?? fallback]: the fallback only when the variable is
    not set; an empty text is kept. *)
Definition orDefault (e : env) (name fallback : jsstring) : jsstring :=
  default fallback (e !! name).

Definition isDigit (c : N) : bool := ((48 <=? c) && (c <=? 57))%N.

Fixpoint digits (s : jsstring) : list N :=
  match s with
  | c :: r => if isDigit c then c :: digits r else []
  | [] => []
  end.

Definition digitsValue (ds : list N) : Z :=
  foldl (fun acc c => (10 * acc + (Z.of_N c - 48))%Z) 0%Z ds.

(** What is left of a text after its sign, and whether the sign is a minus. *)
Definition unsigned (s : jsstring) : bool * jsstring :=
  match s with
  | 45%N :: r => (true, r)
  | 43%N :: r => (false, r)
  | _ => (false, s)
  end.

(** [parseInt(s, 10)]: leading white space is skipped, then an optional
    sign, then the longest run of decimal digits is read and whatever
    follows is ignored; NaN when there is no digit.  The number is the
    integer the digits denote, which is the number of the code as long as it
    is below 2^53 in absolute value. *)
Definition parseInt (s : jsstring) : number_ :=
  let '(negative, body) := unsigned (trimStart s) in
  match digits body with
  | [] => NaN
  | ds => Num (if negative then - digitsValue ds else digitsValue ds)
  end.

Record GitHubConfig := {
  token : jsstring;
  owner : jsstring;
  repo : jsstring;
}.

(** [Config] in full: [github], [polling.intervalMs],
    [worker.maxConcurrency] and [claude]. *)
Record FullConfig := {
  github : GitHubConfig;
  pollingIntervalMs : number_;
  workerMaxConcurrency : number_;
  claude : Config;
}.

Definition GITHUB_REPO : jsstring := js "GITHUB_REPO".
Definition GITHUB_TOKEN : jsstring := js "GITHUB_TOKEN".
Definition POLLING_INTERVAL_MS : jsstring := js "POLLING_INTERVAL_MS".
Definition MAX_CONCURRENCY : jsstring := js "MAX_CONCURRENCY".
Definition CLAUDE_ALLOWED_TOOLS : jsstring := js "CLAUDE_ALLOWED_TOOLS".

(** [s.split(",").map((t) => t.trim()).filter(Boolean)] *)
Definition toolList (s : jsstring) : list jsstring :=
  filter (fun t => truthy t = true) (List.map trim (split COMMA s)).

(** [loadConfig()]: [GITHUB_REPO] is read and split first, then
    [GITHUB_TOKEN], then the three optional variables. *)
Definition loadConfig (e : env) : error + FullConfig :=
  match requireEnv e GITHUB_REPO with
  | inl err => inl err
  | inr repo =>
      let parts := split SLASH repo in
      match parts !! 0%nat, parts !! 1%nat with
      | Some owner, Some repoName =>
          if negb (truthy owner) || negb (truthy repoName)
          then inl (Thrown badRepo)
          else
            match requireEnv e GITHUB_TOKEN with
            | inl err => inl err
            | inr token =>
                inr {| github := {| token := token; owner := owner;
                                    repo := repoName |};
                       pollingIntervalMs :=
                         parseInt (orDefault e POLLING_INTERVAL_MS (js "60000"));
                       workerMaxConcurrency :=
                         parseInt (orDefault e MAX_CONCURRENCY (js "3"));
                       claude :=
                         {| claudeAllowedTools :=
                              toolList (orDefault e CLAUDE_ALLOWED_TOOLS []) |} |}
            end
      | _, _ => inl (Thrown badRepo)
      end
  end.

(** index.ts, [main]: the pool of the service is built with the limit of
    the loaded configuration. *)
Definition servicePool (c : FullConfig) : WorkerPool.WorkerPool :=
  WorkerPool.new (workerMaxConcurrency c).

End ConfigLoader.

Module ConfigLaws.
Import Js Types Run ConfigLoader.

Lemma split_head sep s :
  exists w ws, split sep s = w :: ws /\ (sep ∉ w)
    /\ ((ws = [] /\ s = w) \/ exists r, s = w ++ sep :: r /\ ws = split sep r).
Proof.
  induction s as [|c s (w & ws & Hs & Hw & IH)]; simpl.
  - exists [], []. split; [done|]. split; [apply not_elem_of_nil|]. by left.
  - destruct (c =? sep)%N eqn:Hc.
    + apply N.eqb_eq in Hc as ->. exists [], (split sep s).
      split; [done|]. split; [apply not_elem_of_nil|]. right. by exists s.
    + apply N.eqb_neq in Hc. rewrite Hs. exists (c :: w), ws.
      split; [done|]. split.
      { intros [?|?]%elem_of_cons; [congruence|done]. }
      destruct IH as [[-> ->]|(r & -> & ->)]; [by left|].
      right. by exists r.
Qed.

Lemma split_pieces sep s w : w ∈ split sep s -> sep ∉ w.
Proof.
  revert w. induction s as [|c s IH]; intros w; simpl.
  - intros ->%list_elem_of_singleton. apply not_elem_of_nil.
  - destruct (c =? sep)%N eqn:Hc.
    + intros [->|Hw]%elem_of_cons; [apply not_elem_of_nil|by apply IH].
    + apply N.eqb_neq in Hc.
      destruct (split sep s) as [|w0 ws] eqn:Hs.
      * intros ->%list_elem_of_singleton.
        intros [?|?%elem_of_nil]%elem_of_cons; [congruence|done].
      * intros [->|Hw]%elem_of_cons.
        -- intros [?|Hin]%elem_of_cons; [congruence|].
           apply (IH w0); [|done]. apply elem_of_cons. by left.
        -- apply IH. apply elem_of_cons. by right.
Qed.

Lemma trimStart_suffix s : exists a, s = a ++ trimStart s.
Proof.
  induction s as [|c s [a IH]]; simpl; [by exists []|].
  destruct (isWhiteSpace c); [|by exists []].
  exists (c :: a). simpl. by rewrite <- IH.
Qed.

Lemma trimStart_head s c : head (trimStart s) = Some c -> isWhiteSpace c = false.
Proof.
  induction s as [|c0 s IH]; simpl; [done|].
  destruct (isWhiteSpace c0) eqn:Hc0; [done|]. by intros [= <-].
Qed.

Lemma trimStart_fixed s :
  (forall c, head s = Some c -> isWhiteSpace c = false) -> trimStart s = s.
Proof.
  destruct s as [|c s]; [done|]. simpl. intros Hc. by rewrite (Hc c).
Qed.

Lemma trim_infix s : exists a b, s = a ++ trim s ++ b.
Proof.
  unfold trim, trimEnd.
  destruct (trimStart_suffix s) as [a Ha].
  destruct (trimStart_suffix (rev (trimStart s))) as [b Hb].
  exists a, (rev b). rewrite <- rev_app_distr, <- Hb, rev_involutive. done.
Qed.

Lemma last_rev_head (l : list N) : last (rev l) = head l.
Proof. destruct l as [|c l]; [done|]. simpl. apply last_snoc. Qed.

Lemma trim_last s c : last (trim s) = Some c -> isWhiteSpace c = false.
Proof.
  unfold trim, trimEnd. rewrite last_rev_head. apply trimStart_head.
Qed.

Lemma trim_head s c : head (trim s) = Some c -> isWhiteSpace c = false.
Proof.
  unfold trim, trimEnd. intros Hc.
  assert (Hs : head (trimStart s) = Some c).
  { destruct (trimStart_suffix (rev (trimStart s))) as [b Hb].
    apply (f_equal (@rev N)) in Hb.
    rewrite rev_involutive, rev_app_distr in Hb. rewrite Hb.
    destruct (rev (trimStart (rev (trimStart s)))); [done|]. done. }
  by apply (trimStart_head s).
Qed.

Lemma toolList_spec s t :
  t ∈ toolList s ->
  t <> [] /\ (COMMA ∉ t)
  /\ (forall c, head t = Some c -> isWhiteSpace c = false)
  /\ (forall c, last t = Some c -> isWhiteSpace c = false).
Proof.
  unfold toolList.
  intros [Ht (piece & -> & Hpiece)%list_elem_of_fmap]%list_elem_of_filter.
  split; [by destruct (trim piece)|]. split.
  - destruct (trim_infix piece) as (a & b & Hab).
    intros Hin. apply (split_pieces _ _ _ Hpiece). rewrite Hab.
    apply elem_of_app. right. apply elem_of_app. by left.
  - split; [apply trim_head|apply trim_last].
Qed.

Lemma loadConfig_inr e c :
  loadConfig e = inr c ->
  exists value own rest tok,
    e !! GITHUB_REPO = Some value
    /\ split SLASH value = own :: repo (github c) :: rest
    /\ owner (github c) = own /\ own <> [] /\ repo (github c) <> []
    /\ e !! GITHUB_TOKEN = Some tok /\ tok <> [] /\ token (github c) = tok
    /\ pollingIntervalMs c = parseInt (orDefault e POLLING_INTERVAL_MS (js "60000"))
    /\ workerMaxConcurrency c = parseInt (orDefault e MAX_CONCURRENCY (js "3"))
    /\ claudeAllowedTools (claude c)
       = toolList (orDefault e CLAUDE_ALLOWED_TOOLS []).
Proof.
  unfold loadConfig, requireEnv.
  destruct (e !! GITHUB_REPO) as [value|] eqn:Hrepo; [|done].
  destruct (truthy value) eqn:Hvalue; [|done].
  destruct (split SLASH value) as [|own [|rep rest]] eqn:Hsplit; [done..|].
  cbn [lookup list_lookup].
  destruct own as [|o own]; [done|]. destruct rep as [|r rep]; [done|].
  cbn [truthy negb orb].
  destruct (e !! GITHUB_TOKEN) as [tok|] eqn:Htoken; [|done].
  destruct tok as [|t tok]; [done|]. cbn [truthy].
  intros [= <-]. cbn.
  by exists value, (o :: own), rest, (t :: tok).
Qed.

Lemma split_first sep w r :
  sep ∉ w -> split sep (w ++ sep :: r) = w :: split sep r.
Proof.
  induction w as [|c w IH]; simpl.
  - intros _. by rewrite N.eqb_refl.
  - intros [Hc Hw]%not_elem_of_cons.
    destruct (N.eqb_spec c sep) as [->|_]; [done|]. by rewrite IH.
Qed.

Lemma split_single sep w : sep ∉ w -> split sep w = [w].
Proof.
  induction w as [|c w IH]; simpl; [done|].
  intros [Hc Hw]%not_elem_of_cons.
  destruct (N.eqb_spec c sep) as [->|_]; [done|]. by rewrite IH.
Qed.

Lemma truthy_true s : truthy s = true <-> s <> [].
Proof. by destruct s. Qed.





Section Loaded.
Variable e : gmap (list N) (list N).

Lemma loadConfig_repo c :
  loadConfig e = inr c ->
  exists tail,
    e !! GITHUB_REPO
    = Some (owner (github c) ++ SLASH :: repo (github c) ++ tail)
    /\ (tail = [] \/ head tail = Some SLASH)
    /\ owner (github c) <> [] /\ repo (github c) <> []
    /\ (SLASH ∉ owner (github c)) /\ (SLASH ∉ repo (github c))
    /\ e !! GITHUB_TOKEN = Some (token (github c)) /\ token (github c) <> [].
Proof.
  intros (value & own & rest & tok & Hrepo & Hsplit & <- & Hown & Hrep
          & Htoken & Htok & <- & _)%loadConfig_inr.
  destruct (split_head SLASH value) as (w & ws & Hs & Hw & Hcase).
  rewrite Hsplit in Hs. injection Hs as <- <-.
  destruct Hcase as [[? _]|(r & -> & Hr)]; [done|].
  destruct (split_head SLASH r) as (w' & ws' & Hs' & Hw' & Hcase').
  rewrite <- Hr in Hs'. injection Hs' as <- <-.
  destruct Hcase' as [[-> ->]|(r' & -> & Hr')].
  - exists []. rewrite app_nil_r. repeat split; auto.
  - exists (SLASH :: r'). repeat split; auto.
Qed.

Lemma loadConfig_accepts own rep tail tok :
  e !! GITHUB_REPO = Some (own ++ SLASH :: rep ++ tail) ->
  tail = [] \/ head tail = Some SLASH ->
  own <> [] -> rep <> [] -> SLASH ∉ own -> SLASH ∉ rep ->
  e !! GITHUB_TOKEN = Some tok -> tok <> [] ->
  exists c, loadConfig e = inr c
            /\ github c = {| token := tok; owner := own; repo := rep |}.
Proof.
  intros Hrepo Htail Hown Hrep Hnown Hnrep Htoken Htok.
  unfold loadConfig, requireEnv. rewrite Hrepo, Htoken.
  assert (Hvalue : truthy (own ++ SLASH :: rep ++ tail) = true)
    by (by destruct own).
  rewrite Hvalue. cbv beta iota zeta.
  assert (Hsplit : exists rest,
             split SLASH (own ++ SLASH :: rep ++ tail) = own :: rep :: rest).
  { rewrite split_first by done.
    destruct Htail as [->|Htail].
    - rewrite app_nil_r, split_single by done. by exists [].
    - destruct tail as [|c tl]; [done|]. injection Htail as ->.
      rewrite split_first by done. eauto. }
  destruct Hsplit as [rest ->]. cbn [lookup list_lookup].
  destruct own as [|o own]; [done|]. destruct rep as [|r rep]; [done|].
  destruct tok as [|t tok]; [done|]. cbn [app truthy negb orb].
  eexists. split; reflexivity.
Qed.

End Loaded.

(** X25. [loadConfig] returns a configuration exactly when [GITHUB_TOKEN]
    is set to a non-empty text and [GITHUB_REPO] is set to an owner, a
    slash and a repository name, both non-empty and free of slashes,
    followed by nothing or by a further slash and anything at all: what
    follows the second slash is dropped without an error. *)
Theorem loadConfig_accepts_owner_slash_repo_and_ignores_the_rest
    (e : gmap (list N) (list N)) (own rep tok : list N) :
  (exists c, loadConfig e = inr c
             /\ github c = {| token := tok; owner := own; repo := rep |})
  <-> (exists tail,
         e !! GITHUB_REPO = Some (own ++ SLASH :: rep ++ tail)
         /\ (tail = [] \/ head tail = Some SLASH)
         /\ own <> [] /\ rep <> [] /\ (SLASH ∉ own) /\ (SLASH ∉ rep)
         /\ e !! GITHUB_TOKEN = Some tok /\ tok <> []).
Proof.
  split.
  - intros (c & Hc & Hg).
    destruct (loadConfig_repo e c Hc) as (tail & H). rewrite Hg in H.
    by exists tail.
  - intros (tail & Hrepo & Htail & Hown & Hrep & Hnown & Hnrep & Htoken & Htok).
    by apply (loadConfig_accepts e own rep tail tok).
Qed.

(** X26. Every allowed tool of a loaded configuration is a non-empty name
    without a comma and without white space at either end, and there is
    none unless [CLAUDE_ALLOWED_TOOLS] is set; with none, the handlers pass
    no [allowedTools] option to the agent. *)
Theorem allowed_tools_are_clean_names
    (e : gmap (list N) (list N)) (c : FullConfig) :
  loadConfig e = inr c ->
  (forall t, t ∈ claudeAllowedTools (claude c) ->
     t <> [] /\ (COMMA ∉ t)
     /\ (forall u, head t = Some u -> isWhiteSpace u = false)
     /\ (forall u, last t = Some u -> isWhiteSpace u = false))
  /\ (e !! CLAUDE_ALLOWED_TOOLS = None -> claudeAllowedTools (claude c) = [])
  /\ (claudeAllowedTools (claude c) = [] ->
      TaskHandler.toolsOption (claude c) = None
      /\ ReviewHandler.toolsOption (claude c) = None).
Proof.
  intros (_ & _ & _ & _ & _ & _ & _ & _ & _ & _ & _ & _ & _ & _ & Htools)%loadConfig_inr.
  rewrite Htools. split; [|split].
  - intros t. apply toolList_spec.
  - unfold orDefault. by intros ->.
  - unfold TaskHandler.toolsOption, ReviewHandler.toolsOption.
    rewrite Htools. by intros ->.
Qed.

Lemma allowed_tools_are_clean_names_witness :
  let e : gmap (list N) (list N) :=
    <[CLAUDE_ALLOWED_TOOLS := js " Read, ,Bash ,"]>
      (<[GITHUB_TOKEN := js "t"]> (<[GITHUB_REPO := js "o/r"]> ∅)) in
  exists c, loadConfig e = inr c
    /\ claudeAllowedTools (claude c) = [js "Read"; js "Bash"]
    /\ forall t, t ∈ claudeAllowedTools (claude c) -> t <> [] /\ (COMMA ∉ t).
Proof.
  intros e.
  destruct (loadConfig e) as [err|c] eqn:Hc; [by vm_compute in Hc|].
  exists c. split; [done|]. split.
  - by vm_compute in Hc; injection Hc as <-.
  - intros t Ht.
    destruct (allowed_tools_are_clean_names e c Hc) as [Hclean _].
    destruct (Hclean t Ht) as (? & ? & _). done.
Defined.



End ConfigLaws.
